(** * Deep-research controller: a shallow embedding of the Python sources

    The development follows the layout of the repository:
    - [Py]            the Python values and string/list primitives the code uses;
    - [World]         the external collaborators (Gemini, DuckDuckGo, HTTP, the
                      HTML and JSON parsers), given as oracles;
    - [Scraper]       [utils/scraper.py];
    - [Search]        [utils/search.py];
    - [Llm]           [utils/llm.py];
    - [ResearchLogic] [research_logic.py], the iterative controller;
    - [Main]          [main.py] and [utils/file_utils.py], the request handler.

    Python exceptions are modelled by the [result] type, the mutable list
    object that holds the findings lives in an explicit store, and every call
    the controller makes to a component is recorded in a trace. A Python
    [str] is represented by its UTF-8 encoding, and the functions that look
    at characters ([len], slicing, [strip], [split]) read it code point by
    code point. *)

From Stdlib Require Import ZArith Lia Ascii.
From stdpp Require Import base option list gmap sets strings.

Set Warnings "-clear-no-such-hyp".
Local Open Scope Z_scope.

(** ** Python values and primitives *)

Module Py.

(** The exception classes that occur in the sources. All of them are
    subclasses of [Exception]. *)
Inductive exn : Type :=
| HTTPStatusError (status : Z)   (* httpx.HTTPStatusError *)
| RequestError                   (* httpx.RequestError: timeout, DNS, connection *)
| JSONDecodeError                (* json.JSONDecodeError *)
| IndexError                     (* list index out of range *)
| OtherError (what : string).    (* any other subclass of Exception *)

(** Outcome of evaluating a Python expression: a value or a raised exception. *)
Inductive result (A : Type) : Type :=
| Ok (a : A)
| Raised (e : exn).
Arguments Ok {A} a.
Arguments Raised {A} e.

Definition is_ok {A} (r : result A) : bool :=
  match r with Ok _ => true | Raised _ => false end.

(** Values produced by [json.loads]. Objects keep their items as a list of
    pairs; [dict_get] is the lookup of [dict.get]. *)
#[warnings="-register-all"]
Inductive json : Type :=
| JNull
| JBool (b : bool)
| JNum (literal : string)
| JStr (s : string)
| JArr (items : list json)
| JObj (items : list (string * json)).

Fixpoint dict_get (k : string) (items : list (string * json)) : option json :=
  match items with
  | [] => None
  | (k', v) :: rest => if decide (k = k') then Some v else dict_get k rest
  end.

(** Characters. *)
Definition LF : ascii := "010"%char.
Definition nl : string := String LF "".

(** *** Text

    A Python [str] is a sequence of code points. It is represented by its
    UTF-8 encoding, a string of bytes, and [codepoints] cuts the bytes into
    code points: a first byte together with the continuation bytes it
    announces, as far as they are there. *)

(** The bytes [10xxxxxx]. *)
Definition is_continuation (c : ascii) : bool :=
  let n := nat_of_ascii c in (128 <=? n)%nat && (n <? 192)%nat.

(** The number of continuation bytes that a first byte announces. *)
Definition width (c : ascii) : nat :=
  let n := nat_of_ascii c in
  if (n <? 192)%nat then 0
  else if (n <? 224)%nat then 1
  else if (n <? 240)%nat then 2
  else if (n <? 248)%nat then 3
  else 0.

(** A continuation byte that no first byte has taken yet. *)
Definition stray (cp : string) : bool :=
  match cp with
  | String c EmptyString => is_continuation c
  | _ => false
  end.

(** Up to [k] continuation bytes at the head of [cps], and the rest. *)
Fixpoint absorb (k : nat) (cps : list string) : string * list string :=
  match k, cps with
  | S k', cp :: rest =>
      if stray cp then let '(taken, rest') := absorb k' rest in (cp +:+ taken, rest')
      else (EmptyString, cps)
  | _, _ => (EmptyString, cps)
  end.

Fixpoint codepoints (s : string) : list string :=
  match s with
  | EmptyString => []
  | String c s' =>
      let '(taken, rest) := absorb (width c) (codepoints s') in
      String c taken :: rest
  end.

(** The text made of the code points [cps]. *)
Definition of_codepoints (cps : list string) : string := foldr String.append EmptyString cps.

(** The UTF-8 encoding of the code point [n]. *)
Definition utf8 (n : N) : string :=
  let byte (k : N) : ascii := ascii_of_N k in
  (if n <? 0x80 then String (byte n) EmptyString
   else if n <? 0x800 then
     String (byte (0xC0 + n / 0x40)) (String (byte (0x80 + n mod 0x40)) EmptyString)
   else if n <? 0x10000 then
     String (byte (0xE0 + n / 0x1000))
       (String (byte (0x80 + (n / 0x40) mod 0x40))
          (String (byte (0x80 + n mod 0x40)) EmptyString))
   else
     String (byte (0xF0 + n / 0x40000))
       (String (byte (0x80 + (n / 0x1000) mod 0x40))
          (String (byte (0x80 + (n / 0x40) mod 0x40))
             (String (byte (0x80 + n mod 0x40)) EmptyString))))%N.

(** The code points that [str.isspace] accepts, which are those that
    [str.split()] and [str.strip()] treat as whitespace: TAB, LF, VT, FF, CR,
    the separators FS GS RS US, the space, NEL, the no-break space, and the
    spaces and line separators beyond Latin-1. *)
Definition whitespace : list N :=
  [0x09; 0x0A; 0x0B; 0x0C; 0x0D; 0x1C; 0x1D; 0x1E; 0x1F; 0x20; 0x85; 0xA0;
   0x1680; 0x2000; 0x2001; 0x2002; 0x2003; 0x2004; 0x2005; 0x2006; 0x2007;
   0x2008; 0x2009; 0x200A; 0x2028; 0x2029; 0x202F; 0x205F; 0x3000]%N.

Definition isspace (cp : string) : bool :=
  bool_decide (cp ∈ utf8 <$> whitespace).

(** [s.split(sep)] for a one-character separator: never empty, keeps the
    empty fields. *)
Fixpoint split_char (sep : ascii) (s : string) : list string :=
  match s with
  | EmptyString => [EmptyString]
  | String c s' =>
      if Ascii.eqb c sep then EmptyString :: split_char sep s'
      else match split_char sep s' with
           | [] => [String c EmptyString]
           | w :: ws => String c w :: ws
           end
  end.

(** [s.strip()]: the leading and the trailing whitespace removed. *)
Fixpoint lstrip_points (cps : list string) : list string :=
  match cps with
  | [] => []
  | cp :: cps' => if isspace cp then lstrip_points cps' else cps
  end.

Fixpoint rstrip_points (cps : list string) : list string :=
  match cps with
  | [] => []
  | cp :: cps' =>
      match rstrip_points cps' with
      | [] => if isspace cp then [] else [cp]
      | r => cp :: r
      end
  end.

Definition strip (s : string) : string :=
  of_codepoints (rstrip_points (lstrip_points (codepoints s))).

(** [s.split()]: the maximal runs of code points that are not whitespace. *)
Fixpoint split_ws_go (cur : option string) (cps : list string) : list string :=
  match cps with
  | [] => option_list cur
  | cp :: cps' =>
      if isspace cp then option_list cur ++ split_ws_go None cps'
      else split_ws_go (Some (default EmptyString cur +:+ cp)) cps'
  end.
Definition split_ws (s : string) : list string := split_ws_go None (codepoints s).

(** [sep.join(parts)] *)
Definition join (sep : string) (parts : list string) : string :=
  String.concat sep parts.

(** Truthiness of a string: [bool(s)]. *)
Definition nonempty (s : string) : bool :=
  match s with EmptyString => false | String _ _ => true end.

(** [s.lower()] on the ASCII letters, which is all that the test for ["html"]
    in a content type depends on. *)
Definition lower_char (c : ascii) : ascii :=
  let n := nat_of_ascii c in
  if ((65 <=? n)%nat && (n <=? 90)%nat) then ascii_of_nat (n + 32) else c.

Fixpoint lower (s : string) : string :=
  match s with
  | EmptyString => EmptyString
  | String c s' => String (lower_char c) (lower s')
  end.

(** [needle in s] *)
Fixpoint contains (needle s : string) : bool :=
  String.prefix needle s ||
  match s with
  | EmptyString => false
  | String _ s' => contains needle s'
  end.

(** [len(s)] and [s[:n]] for [0 <= n], in code points. *)
Definition len (s : string) : Z := Z.of_nat (length (codepoints s)).
Definition str_prefix (n : Z) (s : string) : string :=
  of_codepoints (take (Z.to_nat n) (codepoints s)).

(** List slices [l[:stop]] and [l[start:]] with Python's treatment of
    negative and out-of-range indices. *)
Definition slice_to {A} (l : list A) (stop : Z) : list A :=
  if stop <? 0 then take (Z.to_nat (Z.of_nat (length l) + stop)) l
  else take (Z.to_nat stop) l.

Definition slice_from {A} (l : list A) (start : Z) : list A :=
  if start <? 0 then drop (Z.to_nat (Z.of_nat (length l) + start)) l
  else drop (Z.to_nat start) l.

(** [range(n)] as the number of iterations of [for i in range(n)]. *)
Definition range_len (n : Z) : nat := Z.to_nat n.

End Py.
Export Py.

(** [result] is the exception monad: [x ← e; k] evaluates [e] and stops at
    the first raised exception. *)
Global Instance result_ret : MRet result := fun _ a => Ok a.
Global Instance result_bind : MBind result := fun _ _ f r =>
  match r with
  | Ok a => f a
  | Raised e => Raised e
  end.

(** ** External collaborators *)

(** The three configured models of [utils/llm.py]. *)
Inductive gemini_model : Type := model_search | model_analyze | model_report.

(** The prompts are f-strings over fixed text; a prompt is represented by the
    values interpolated into it. [known = None] stands for the literal
    "none yet" text the templates print for an empty findings list. *)
Inductive prompt : Type :=
| SearchPrompt (breadth : Z) (context : string) (known : option (list json))
| AnalyzePrompt (context : string) (known : option (list json)) (text_to_analyze : string)
| ReportPrompt (query : string) (all_learnings : list json).

(** A Gemini response: the text parts it carries and its number of candidates. *)
Record response : Type := { parts : list string; candidates : nat }.

(** [response.text] *)
Definition response_text (r : response) : string := join "" (parts r).

(** An HTTP response as [scrape_content] reads it. *)
Record http_response : Type := {
  status_code : Z;
  content_type : option string;   (* the content-type header, when present *)
  html_content : string
}.

(** One entry yielded by [DDGS.text]: anything that is not a dict, or a dict
    with or without the key [href]. *)
Inductive search_row : Type :=
| NotADict
| Dict (href : option string).

(** The dict [{"url": ..., "text": ...}] returned by a successful scrape. *)
Record document : Type := { url : string; text : string }.

(** Services and third-party libraries whose code is outside the repository.
    The first argument of the three services is the moment of the call (the
    number of component calls made before it), so that the same request may
    be answered differently at different times.
    - [generate_content_async]: [model.generate_content_async(prompt)];
    - [ddgs_text]: [DDGS(...).text(query, max_results=n)];
    - [client_get]: [httpx.AsyncClient(...).get(url)];
    - [soup_body_texts]: for the parsed page with the non-content elements
      removed, [None] when it has no body element, else the
      [get_text(separator=' ', strip=True)] of every p, h1..h6 and li element
      of the body, in document order;
    - [json_loads]: [json.loads];
    - [py_repr]: the text an f-string prints for a value that is not a string. *)
Record World : Type := {
  generate_content_async : nat → gemini_model → prompt → result response;
  ddgs_text : nat → string → Z → result (list search_row);
  client_get : nat → string → result http_response;
  soup_body_texts : string → result (option (list string));
  json_loads : string → result json;
  py_repr : json → string
}.

(** The text [f"{v}"] prints for [v]. *)
Definition py_format (w : World) (v : json) : string :=
  match v with
  | JStr s => s
  | _ => py_repr w v
  end.

(** ** utils/scraper.py *)

Module Scraper.

(** [response.raise_for_status()]: httpx raises [HTTPStatusError] for every
    status outside 200..299. *)
Definition raise_for_status (r : http_response) : result unit :=
  if (200 <=? status_code r) && (status_code r <? 300) then Ok tt
  else Raised (HTTPStatusError (status_code r)).

(** The whitespace normalisation of one element:
    [' '.join(tag.get_text(separator=' ', strip=True).split())]. *)
Definition cleaned_text (tag_text : string) : string :=
  join " " (split_ws tag_text).

(** The block guarded by [try] in [scrape_content]. *)
Definition scrape_try (w : World) (t : nat) (url : string) : result (option document) :=
  response ← client_get w t url;
  _ ← raise_for_status response;
  let content_type := lower (default "" (content_type response)) in
  if negb (contains "html" content_type) then Ok None
  else
    body ← soup_body_texts w (html_content response);
    match body with
    | None => Ok None
    | Some tags =>
        let text_parts := List.filter nonempty (map cleaned_text tags) in
        let extracted_text := join nl text_parts in
        if negb (nonempty extracted_text) then Ok None
        else Ok (Some {| url := url; text := extracted_text |})
    end.

(** [scrape_content]: the three [except] clauses all return [None]. *)
Definition scrape_content (w : World) (t : nat) (url : string) : result (option document) :=
  match scrape_try w t url with
  | Ok r => Ok r
  | Raised (HTTPStatusError _) => Ok None
  | Raised RequestError => Ok None
  | Raised _ => Ok None
  end.

End Scraper.

(** ** utils/search.py *)

Module Search.

(** The loop [for r in results] of [find_urls], with its [break]. *)
Fixpoint collect_hrefs (num_results : Z) (results : list search_row)
    (urls : list string) : list string :=
  match results with
  | [] => urls
  | Dict (Some h) :: rest =>
      let urls' := urls ++ [h] in
      if num_results <=? Z.of_nat (length urls') then urls'
      else collect_hrefs num_results rest urls'
  | _ :: rest => collect_hrefs num_results rest urls
  end.

(** [find_urls]: an exception of the provider is logged and the URLs
    collected so far (none) are returned. *)
Definition find_urls (w : World) (t : nat) (query : string) (num_results : Z)
    : result (list string) :=
  let urls :=
    match ddgs_text w t query (num_results * 2) with
    | Ok results => collect_hrefs num_results results []
    | Raised _ => []
    end in
  Ok urls.

End Search.

(** ** utils/llm.py *)

Module Llm.

(** [_call_gemini_api]: the text of the response, the empty string when the
    response has no parts, and every exception logged and raised again.
    Logging a response without parts reads [response.candidates[0]], which
    raises [IndexError] when there is no candidate. *)
Definition _call_gemini_api (w : World) (t : nat) (p : prompt) (model : gemini_model)
    : result string :=
  match generate_content_async w t model p with
  | Ok response =>
      match parts response with
      | _ :: _ => Ok (response_text response)
      | [] =>
          match candidates response with
          | O => Raised IndexError
          | S _ => Ok ""
          end
      end
  | Raised e => Raised e
  end.

(** [learnings[-5:] if learnings else "..."] and [learnings if learnings else "..."] *)
Definition last_five (learnings : list json) : option (list json) :=
  match learnings with
  | [] => None
  | _ => Some (slice_from learnings (-5))
  end.

Definition all_known (learnings : list json) : option (list json) :=
  match learnings with
  | [] => None
  | _ => Some learnings
  end.

(** [[q.strip() for q in response_text.split('\n') if q.strip()]] *)
Definition parse_queries (response_text : string) : list string :=
  map strip (List.filter (fun q => nonempty (strip q)) (split_char LF response_text)).

Definition generate_search_queries (w : World) (t : nat) (context : string)
    (learnings : list json) (breadth : Z) : result (list string) :=
  response_text ←
    _call_gemini_api w t (SearchPrompt breadth context (last_five learnings)) model_search;
  let queries := parse_queries response_text in
  Ok (slice_to queries breadth).

(** The dict [{"learnings": [...], "directions": [...]}] returned by
    [summarize_and_find_directions]. *)
Record analysis : Type := { learnings : list json; directions : list json }.

Definition no_analysis : analysis := {| learnings := []; directions := [] |}.

Definition max_input_chars : Z := 30000.

(** The [try] block after the model call, with its handlers. *)
Definition parse_analysis (w : World) (response_text : string) : analysis :=
  match json_loads w response_text with
  | Ok (JObj items) =>
      match dict_get "learnings" items, dict_get "directions" items with
      | Some (JArr ls), Some (JArr ds) => {| learnings := ls; directions := ds |}
      | _, _ => no_analysis
      end
  | Ok _ => no_analysis
  | Raised JSONDecodeError => {| learnings := []; directions := [] |}
  | Raised _ => no_analysis
  end.

Definition summarize_and_find_directions (w : World) (t : nat) (context : string)
    (known : list json) (text_to_analyze : string) : result analysis :=
  let text_to_analyze :=
    if max_input_chars <? len text_to_analyze
    then str_prefix max_input_chars text_to_analyze
    else text_to_analyze in
  response_text ←
    _call_gemini_api w t (AnalyzePrompt context (all_known known) text_to_analyze)
      model_analyze;
  Ok (parse_analysis w response_text).

(** The two fixed templates of [generate_final_report]. *)
Definition no_information_report (query : string) : string :=
  "# Исследование по запросу: " +:+ query +:+ nl +:+ nl +:+
  "Не удалось собрать информацию по данному запросу.".

Definition fallback_report (w : World) (all_learnings : list json) : string :=
  ("# Отчет не сгенерирован" +:+ nl +:+ nl +:+
   "Gemini не вернул текст отчета." +:+ nl +:+ nl +:+
   "Собранные выводы:" +:+ nl) +:+
  join nl (map (fun l => "- " +:+ py_format w l) all_learnings).

Definition generate_final_report (w : World) (t : nat) (query : string)
    (all_learnings : list json) : result string :=
  match all_learnings with
  | [] => Ok (no_information_report query)
  | _ =>
      report ← _call_gemini_api w t (ReportPrompt query all_learnings) model_report;
      Ok (if nonempty report then report else fallback_report w all_learnings)
  end.

End Llm.

(** ** research_logic.py *)

Module ResearchLogic.
Import Llm.

(** *** Store, trace and the controller's monad *)

(** Python list objects are referred to by their identity. Only the list of
    findings is shared with the caller, so only lists of findings are kept in
    the store. *)
Definition loc : Type := nat.

(** One entry per call the controller makes to a component, with the
    arguments of the call and what it evaluated to. *)
Inductive event : Type :=
| GenerateSearchQueries (context : string) (known : list json) (breadth : Z)
    (res : result (list string))
| FindUrls (query : string) (num_results : Z) (res : result (list string))
| ScrapeContent (target : string) (res : result (option document))
| SummarizeAndFindDirections (context : string) (known : list json)
    (text_to_analyze : string) (res : result analysis)
| GenerateFinalReport (query : string) (known : list json) (res : result string).

Record state : Type := {
  heap : gmap loc (list json);
  trace : list event
}.

(** A computation reads and updates the state and ends with a value or with
    a raised exception; the state reached at the moment of the exception is
    kept. *)
Definition M (A : Type) : Type := state → result A * state.

Global Instance M_ret : MRet M := fun _ a st => (Ok a, st).
Global Instance M_bind : MBind M := fun _ _ f m st =>
  match m st with
  | (Ok a, st') => f a st'
  | (Raised e, st') => (Raised e, st')
  end.

(** [list(xs)] and [[]]: a new list object. *)
Definition new_list (xs : list json) : M loc := fun st =>
  let l := fresh (dom (heap st)) in
  (Ok l, {| heap := <[l := xs]> (heap st); trace := trace st |}).

Definition contents (h : gmap loc (list json)) (l : loc) : list json :=
  default [] (h !! l).

Definition read_list (l : loc) : M (list json) := fun st =>
  (Ok (contents (heap st) l), st).

(** [l.extend(xs)]: the object is updated in place. *)
Definition extend (l : loc) (xs : list json) : M unit := fun st =>
  (Ok tt, {| heap := <[l := contents (heap st) l ++ xs]> (heap st); trace := trace st |}).

(** [await component(...)]: the call happens at the current moment and is
    recorded with its outcome. *)
Definition await {A} (call : nat → result A) (ev : result A → event) : M A := fun st =>
  let r := call (length (trace st)) in
  (r, {| heap := heap st; trace := trace st ++ [ev r] |}).

(** [asyncio.gather] of a list of tasks: the results are returned in the order of the
    tasks and the first exception is propagated. The tasks are taken in
    order. *)
Fixpoint gather {A} (tasks : list (M A)) : M (list A) :=
  match tasks with
  | [] => mret []
  | task :: rest => x ← task; xs ← gather rest; mret (x :: xs)
  end.

(** A task under [return_exceptions=True]: its exception becomes its value. *)
Definition settle {A} (task : M A) : M (result A) := fun st =>
  let '(r, st') := task st in (Ok r, st').

(** *** The controller *)

Record session : Type := {
  all_learnings : loc;
  visited_urls : gset string;
  all_sources : list string;
  current_query_context : string;
  final_directions : list json
}.

Definition set_visited_urls (v : gset string) (s : session) : session :=
  {| all_learnings := all_learnings s; visited_urls := v;
     all_sources := all_sources s;
     current_query_context := current_query_context s;
     final_directions := final_directions s |}.

Definition set_all_sources (srcs : list string) (s : session) : session :=
  {| all_learnings := all_learnings s; visited_urls := visited_urls s;
     all_sources := srcs;
     current_query_context := current_query_context s;
     final_directions := final_directions s |}.

Definition set_final_directions (ds : list json) (s : session) : session :=
  {| all_learnings := all_learnings s; visited_urls := visited_urls s;
     all_sources := all_sources s;
     current_query_context := current_query_context s;
     final_directions := ds |}.

(** The tuple returned by [perform_deep_research]; [findings] is the list
    object [all_learnings] itself. *)
Record outcome : Type := {
  final_report : string;
  sources : list string;
  findings : loc;
  next_directions : list json
}.

(** The inner loop [for url in urls]: test and insertion happen together. *)
Definition add_new_urls (urls : list string) (acc : list string * gset string)
    : list string * gset string :=
  fold_left (fun acc url =>
    if decide (url ∈ acc.2) then acc
    else (acc.1 ++ [url], {[url]} ∪ acc.2)) urls acc.

(** The outer loop [for urls in results]. *)
Definition new_urls (results : list (list string)) (visited : gset string)
    : list string * gset string :=
  fold_left (fun acc urls => add_new_urls urls acc) results ([], visited).

(** [isinstance(result, dict) and result.get('text')] *)
Definition successful (r : result (option document)) : option document :=
  match r with
  | Ok (Some d) => if nonempty (text d) then Some d else None
  | _ => None
  end.

Definition separator : string := nl +:+ nl +:+ "---" +:+ nl +:+ nl.

Section Controller.
Variable w : World.

Definition search_task (query : string) : M (list string) :=
  await (fun t => Search.find_urls w t query 2) (FindUrls query 2).

Definition scrape_task (u : string) : M (option document) :=
  await (fun t => Scraper.scrape_content w t u) (ScrapeContent u).

(** The body of [for i in range(depth)]; the two [continue] statements end
    the iteration with the session as it is. *)
Definition iteration (breadth : Z) (s : session) : M session :=
  known ← read_list (all_learnings s);
  search_queries ←
    await (fun t => generate_search_queries w t (current_query_context s) known breadth)
          (GenerateSearchQueries (current_query_context s) known breadth);
  results ← gather (map search_task search_queries);
  let '(urls_to_scrape, visited) := new_urls results (visited_urls s) in
  let s := set_visited_urls visited s in
  match urls_to_scrape with
  | [] => mret s
  | _ :: _ =>
      scraped_results ← gather (map (fun u => settle (scrape_task u)) urls_to_scrape);
      let scraped_data := omap successful scraped_results in
      let successful_urls := map url scraped_data in
      match scraped_data with
      | [] => mret s
      | _ :: _ =>
          let s := set_all_sources (all_sources s ++ successful_urls) s in
          let combined_text := join separator (map text scraped_data) in
          known ← read_list (all_learnings s);
          summary_and_directions ←
            await (fun t => summarize_and_find_directions w t (current_query_context s)
                              known combined_text)
                  (SummarizeAndFindDirections (current_query_context s) known combined_text);
          let new_learnings := learnings summary_and_directions in
          let next := directions summary_and_directions in
          _ ← extend (all_learnings s) new_learnings;
          mret (set_final_directions next s)
      end
  end.

(** [n] iterations of the loop. *)
Fixpoint research_loop (breadth : Z) (n : nat) (s : session) : M session :=
  match n with
  | O => mret s
  | S n' => s' ← iteration breadth s; research_loop breadth n' s'
  end.

(** Lines 17-24: the local variables before the loop. *)
Definition open_session (initial_query : string) (existing_learnings : option loc)
    : M session :=
  existing ← match existing_learnings with
             | None => new_list []
             | Some l => mret l
             end;
  copied ← read_list existing;
  all ← new_list copied;
  mret {| all_learnings := all; visited_urls := ∅; all_sources := [];
          current_query_context := initial_query; final_directions := [] |}.

(** Everything up to the end of the loop. *)
Definition research_session (initial_query : string) (depth breadth : Z)
    (existing_learnings : option loc) : M session :=
  s ← open_session initial_query existing_learnings;
  research_loop breadth (range_len depth) s.

Definition perform_deep_research (initial_query : string) (depth breadth : Z)
    (existing_learnings : option loc) : M outcome :=
  s ← research_session initial_query depth breadth existing_learnings;
  known ← read_list (all_learnings s);
  report ← await (fun t => generate_final_report w t initial_query known)
                 (GenerateFinalReport initial_query known);
  (* [list(set(all_sources))]: Python leaves the order of the result open;
     [elements] fixes one. *)
  mret {| final_report := report;
          sources := elements (list_to_set (all_sources s) : gset string);
          findings := all_learnings s;
          next_directions := final_directions s |}.

End Controller.

End ResearchLogic.

(** * Specification vocabulary *)

Import ResearchLogic Llm.

(** ** What a trace shows *)

(** Number of Query Expander calls. *)
Definition expander_calls (evs : list event) : nat :=
  length (List.filter (fun ev => match ev with GenerateSearchQueries _ _ _ _ => true | _ => false end) evs).

(** The URLs handed to the Content Extractor, in the order of the calls. *)
Definition extracted_urls (evs : list event) : list string :=
  omap (fun ev => match ev with ScrapeContent u _ => Some u | _ => None end) evs.

(** What the Insight Synthesizer calls evaluated to, in the order of the calls. *)
Definition syntheses (evs : list event) : list (result analysis) :=
  omap (fun ev => match ev with SummarizeAndFindDirections _ _ _ r => Some r | _ => None end) evs.

(** Number of Report Composer calls. *)
Definition report_calls (evs : list event) : nat :=
  length (List.filter (fun ev => match ev with GenerateFinalReport _ _ _ => true | _ => false end) evs).

(** The exception a recorded call ended with, if any. *)
Definition raised_by (ev : event) : option exn :=
  match ev with
  | GenerateSearchQueries _ _ _ (Raised e)
  | FindUrls _ _ (Raised e)
  | ScrapeContent _ (Raised e)
  | SummarizeAndFindDirections _ _ _ (Raised e)
  | GenerateFinalReport _ _ (Raised e) => Some e
  | _ => None
  end.

(** The calls that go through [_call_gemini_api]. *)
Definition is_model_call (ev : event) : bool :=
  match ev with
  | GenerateSearchQueries _ _ _ _
  | SummarizeAndFindDirections _ _ _ _
  | GenerateFinalReport _ _ _ => true
  | _ => false
  end.

(** The events a computation adds to the trace. *)
Definition events_of {A} (m : M A) (st : state) : list event :=
  drop (length (trace st)) (trace (m st).2).

(** ** The Content Extractor as seen by the controller *)


(** ** The language model as seen by the components *)

(** Some call to the model raises [e]. *)
Definition model_raises (w : World) (e : exn) : Prop :=
  ∃ t p m, _call_gemini_api w t p m = Raised e.


(** The same for one of the three configured models. *)
Definition model_call_raises (w : World) (m : gemini_model) (e : exn) : Prop :=
  ∃ t p, _call_gemini_api w t p m = Raised e.

Definition model_call_reliable (w : World) (m : gemini_model) : Prop :=
  ∀ t p, is_ok (_call_gemini_api w t p m) = true.

(** ** One iteration, relationally *)

(** The events of a batch of searches: every search returned a list. *)
Definition searches (evs : list event) : Prop :=
  Forall (fun ev => ∃ q n urls, ev = FindUrls q n (Ok urls)) evs.

(** The events of a batch of extractions of [urls]: one call per URL, in
    order, none of which raised. *)
Definition extractions (urls : list string) (evs : list event) : Prop :=
  Forall2 (fun u ev => ∃ r, ev = ScrapeContent u (Ok r)) urls evs.

(** The URLs of a batch are new to the session and pairwise distinct. *)
Definition fresh_batch (s : session) (urls : list string) : Prop :=
  NoDup urls ∧ ∀ u, u ∈ urls → u ∉ visited_urls s.

Definition batch_visited (urls : list string) (s : session) : session :=
  set_visited_urls (visited_urls s ∪ list_to_set urls) s.

(** [iteration_run w b s h r h' evs]: from session [s] and store [h], the body
    of the loop ends with [r] in store [h'] after the calls [evs]. The five
    cases are the five ways through the body. *)
Inductive iteration_run (w : World) (b : Z) (s : session) (h : gmap loc (list json))
  : result session → gmap loc (list json) → list event → Prop :=
| expander_raised e :
    model_call_raises w model_search e →
    iteration_run w b s h (Raised e) h
      [GenerateSearchQueries (current_query_context s) (contents h (all_learnings s)) b
         (Raised e)]
| no_new_urls qs sev :
    searches sev →
    iteration_run w b s h (Ok s) h
      ([GenerateSearchQueries (current_query_context s) (contents h (all_learnings s)) b
          (Ok qs)] ++ sev)
| no_content qs sev urls xev :
    searches sev → fresh_batch s urls → extractions urls xev →
    iteration_run w b s h (Ok (batch_visited urls s)) h
      ([GenerateSearchQueries (current_query_context s) (contents h (all_learnings s)) b
          (Ok qs)] ++ sev ++ xev)
| synthesis_raised qs sev urls xev txt e :
    searches sev → fresh_batch s urls → extractions urls xev →
    model_call_raises w model_analyze e →
    iteration_run w b s h (Raised e) h
      ([GenerateSearchQueries (current_query_context s) (contents h (all_learnings s)) b
          (Ok qs)] ++ sev ++ xev ++
       [SummarizeAndFindDirections (current_query_context s)
          (contents h (all_learnings s)) txt (Raised e)])
| synthesized qs sev urls xev txt good a :
    searches sev → fresh_batch s urls → extractions urls xev →
    good ⊆ urls →
    iteration_run w b s h
      (Ok (set_final_directions (directions a)
             (set_all_sources (all_sources s ++ good) (batch_visited urls s))))
      (<[all_learnings s := contents h (all_learnings s) ++ learnings a]> h)
      ([GenerateSearchQueries (current_query_context s) (contents h (all_learnings s)) b
          (Ok qs)] ++ sev ++ xev ++
       [SummarizeAndFindDirections (current_query_context s)
          (contents h (all_learnings s)) txt (Ok a)]).

(** [loop_run w b n s h r h' evs]: [n] iterations from [s] and [h]. *)
Inductive loop_run (w : World) (b : Z)
  : nat → session → gmap loc (list json) →
    result session → gmap loc (list json) → list event → Prop :=
| loop_done s h : loop_run w b 0 s h (Ok s) h []
| loop_abort n s h e h' evs :
    iteration_run w b s h (Raised e) h' evs →
    loop_run w b (S n) s h (Raised e) h' evs
| loop_next n s h s1 h1 evs1 r h2 evs2 :
    iteration_run w b s h (Ok s1) h1 evs1 →
    loop_run w b n s1 h1 r h2 evs2 →
    loop_run w b (S n) s h r h2 (evs1 ++ evs2).

(** ** The whole run, relationally *)

Definition existing_contents (h : gmap loc (list json)) (existing : option loc) : list json :=
  match existing with
  | None => []
  | Some l => contents h l
  end.

Definition initial_session (l : loc) (initial_query : string) : session :=
  {| all_learnings := l; visited_urls := ∅; all_sources := [];
     current_query_context := initial_query; final_directions := [] |}.

Definition returned (s : session) (report : string) : outcome :=
  {| final_report := report;
     sources := elements (list_to_set (all_sources s) : gset string);
     findings := all_learnings s;
     next_directions := final_directions s |}.

(** ** Facts read off a trace *)

(** The directions: after the loop they are those of the last synthesis,
    and the initial ones when no synthesis took place. *)
Definition directions_after (initial : list json) (evs : list event) : list json :=
  match last (syntheses evs) with
  | Some (Ok a) => directions a
  | Some (Raised _) => []
  | None => initial
  end.

(** How an iteration ends: without any raised call when it returns, and with
    a raising model call as its last call when it raises. No search and no
    extraction ever raises. *)
Definition quiet (evs : list event) : Prop := Forall (fun ev => raised_by ev = None) evs.

Definition aborted_by (e : exn) (evs : list event) : Prop :=
  ∃ before ev,
    evs = before ++ [ev] ∧ quiet before ∧
    raised_by ev = Some e ∧ is_model_call ev = true.

(** ** Concrete worlds *)

(** A world in which the query model always proposes the two queries
    [q1] and [q2], every page is an HTML page with one paragraph, and the
    parser reads the text [findings] as an object with one finding and one
    direction. The search results, the status of a fetch and the answers of
    the analysing and reporting models are given. *)
Definition make_world (found : string → list search_row) (status : string → Z)
    (analyzed reported : result response) : World := {|
  generate_content_async := fun _ m _ =>
    match m with
    | model_search => Ok {| parts := ["q1" +:+ nl +:+ "q2"]; candidates := 1 |}
    | model_analyze => analyzed
    | model_report => reported
    end;
  ddgs_text := fun _ q _ => Ok (found q);
  client_get := fun _ u =>
    Ok {| status_code := status u; content_type := Some "text/html; charset=utf-8";
          html_content := "page" |};
  soup_body_texts := fun _ => Ok (Some ["Surface   codes "]);
  json_loads := fun txt =>
    if decide (txt = "findings")
    then Ok (JObj [("learnings", JArr [JStr "codes protect qubits"]);
                   ("directions", JArr [JStr "decoders"])])
    else Raised JSONDecodeError;
  py_repr := fun _ => "?"
|}.

Definition text_response (txt : string) : result response :=
  Ok {| parts := [txt]; candidates := 1 |}.

Definition transport_error : exn := OtherError "transport".

(** The scenario of the specification: one query finds [siteA] twice, the
    other finds [siteB]. *)
Definition scenario_hits (q : string) : list search_row :=
  if decide (q = "q1")
  then [Dict (Some "siteA.example/qec"); Dict (Some "siteA.example/qec")]
  else [Dict (Some "siteB.example/qec")].

Definition scenario_world : World :=
  make_world scenario_hits (fun _ => 200) (text_response "findings") (text_response "report").

(** As [scenario_world], but [siteB] answers 404. *)
Definition missing_page_world : World :=
  make_world scenario_hits
    (fun u => if decide (u = "siteB.example/qec") then 404 else 200)
    (text_response "findings") (text_response "report").

(** The search provider finds nothing. *)
Definition starving_world : World :=
  make_world (fun _ => []) (fun _ => 200) (text_response "findings") (text_response "report").

(** The analysing model fails. *)
Definition failing_synthesis_world : World :=
  make_world scenario_hits (fun _ => 200) (Raised transport_error) (text_response "report").

(** The search provider finds nothing and the reporting model fails. *)
Definition starving_failing_report_world : World :=
  make_world (fun _ => []) (fun _ => 200) (text_response "findings")
    (Raised transport_error).

(** The reporting model fails. *)
Definition failing_report_world : World :=
  make_world scenario_hits (fun _ => 200) (text_response "findings") (Raised transport_error).

(** A model that answers five lines, two of them blank, in two parts. *)
Definition five_lines_world : World := {|
  generate_content_async := fun _ _ _ =>
    Ok {| parts := ["alpha" +:+ nl +:+ "  " +:+ nl +:+ " beta " +:+ nl +:+ nl +:+ "gamma";
                    nl +:+ "delta" +:+ nl +:+ "epsilon"];
          candidates := 1 |};
  ddgs_text := fun _ _ _ => Ok [];
  client_get := fun _ _ => Raised RequestError;
  soup_body_texts := fun _ => Ok None;
  json_loads := fun _ => Raised JSONDecodeError;
  py_repr := fun _ => "?"
|}.

(** The query model answers with lines that carry Unicode spaces: a line
    made of a no-break space only, and a query between an ideographic space
    and a no-break space. *)
Definition unicode_lines_world : World := {|
  generate_content_async := fun _ _ _ =>
    Ok {| parts := ["alpha" +:+ nl +:+ utf8 0xA0 +:+ nl +:+
                    utf8 0x3000 +:+ "beta" +:+ utf8 0xA0 +:+ nl +:+ " gamma"];
          candidates := 1 |};
  ddgs_text := fun _ _ _ => Ok [];
  client_get := fun _ _ => Raised RequestError;
  soup_body_texts := fun _ => Ok None;
  json_loads := fun _ => Raised JSONDecodeError;
  py_repr := fun _ => "?"
|}.

(** The store and trace before a run: nothing, or one list of the caller. *)
Definition empty_state : state := {| heap := ∅; trace := [] |}.

Definition caller_state : state :=
  {| heap := {[ 0%nat := [JStr "known fact"] ]}; trace := [] |}.


(** ** Vocabulary for the text functions *)

(** The bytes of a string. *)
Definition bytes (s : string) : list ascii := String.list_ascii_of_string s.

(** A string without line feed. *)
Definition one_line (s : string) : Prop := LF ∉ bytes s.

(** A text without any whitespace. *)
Definition spaceless (s : string) : Prop :=
  Forall (fun cp => isspace cp = false) (codepoints s).

(** A word: not empty, no whitespace. *)
Definition word (s : string) : Prop := s ≠ "" ∧ spaceless s.

(** A text that neither begins nor ends with whitespace. *)
Definition trimmed (s : string) : Prop :=
  match head (codepoints s), last (codepoints s) with
  | Some first, Some final => isspace first = false ∧ isspace final = false
  | _, _ => True
  end.

(** A first byte followed by continuation bytes, no more than it announces. *)
Definition point (cp : string) : Prop :=
  ∃ c k, cp = String c k ∧
         Forall (fun c' => is_continuation c' = true) (bytes k) ∧
         (String.length k ≤ width c)%nat.

(** A code point that has all the continuation bytes its first byte
    announces. *)
Definition complete (cp : string) : bool :=
  match cp with
  | String c k => (width c <=? String.length k)%nat
  | EmptyString => true
  end.

(** A chunk that begins with a continuation byte. *)
Definition continues (cp : string) : bool :=
  match cp with
  | String c _ => is_continuation c
  | EmptyString => false
  end.

(** The lists of code points that [codepoints] produces: a code point that
    lacks continuation bytes is not followed by one. *)
Fixpoint segmented (cps : list string) : Prop :=
  match cps with
  | [] => True
  | cp :: rest =>
      point cp ∧
      (complete cp = false →
       match rest with next :: _ => continues next = false | [] => True end) ∧
      segmented rest
  end.

(** The [href] values of the well-formed entries of a result list. *)
Definition hrefs (rows : list search_row) : list string :=
  omap (fun r => match r with Dict (Some h) => Some h | _ => None end) rows.

(** A page with three elements, one of them blank, served for every URL. *)
Definition page_world : World := {|
  generate_content_async := fun _ _ _ => Ok {| parts := ["q"]; candidates := 1 |};
  ddgs_text := fun _ _ _ =>
    Ok [NotADict; Dict None; Dict (Some "a.example"); Dict (Some "b.example");
        Dict (Some "c.example"); Dict (Some "d.example")];
  client_get := fun _ _ =>
    Ok {| status_code := 200; content_type := Some "Text/HTML";
          html_content := "page" |};
  soup_body_texts := fun _ => Ok (Some [" Error   correction "; "   "; "Surface codes"]);
  json_loads := fun _ => Raised JSONDecodeError;
  py_repr := fun _ => "?"
|}.

(** ** Further facts read off a trace *)

(** The context (or query) a call to a model-backed component was given. *)
Definition event_context (ev : event) : option string :=
  match ev with
  | GenerateSearchQueries c _ _ _ => Some c
  | SummarizeAndFindDirections c _ _ _ => Some c
  | GenerateFinalReport q _ _ => Some q
  | _ => None
  end.

(** The findings of all syntheses of a trace, in the order of the calls. *)
Definition learned (evs : list event) : list json :=
  mjoin (omap (fun r => match r with Ok a => Some (learnings a) | Raised _ => None end)
           (syntheses evs)).

(** Number of Retriever calls. *)
Definition search_calls (evs : list event) : nat :=
  length (List.filter (fun ev => match ev with FindUrls _ _ _ => true | _ => false end) evs).

(** The URLs of the extractions of a trace that gave a usable document. *)
Definition successes (evs : list event) : list string :=
  omap (fun ev => match ev with
                  | ScrapeContent _ r => url <$> successful r
                  | _ => None
                  end) evs.

(** An extraction that gave a document gave it for the URL it was asked
    for, with some text. *)
Definition well_scraped (ev : event) : Prop :=
  match ev with
  | ScrapeContent u (Ok (Some d)) => url d = u ∧ nonempty (text d) = true
  | _ => True
  end.

(** A world whose models answer without any part, as for a blocked answer. *)
Definition blocked_world : World := {|
  generate_content_async := fun _ _ _ => Ok {| parts := []; candidates := 1 |};
  ddgs_text := fun _ _ _ => Ok [];
  client_get := fun _ _ => Raised RequestError;
  soup_body_texts := fun _ => Ok None;
  json_loads := fun _ => Raised JSONDecodeError;
  py_repr := fun _ => "?"
|}.


(** ** main.py and utils/file_utils.py *)

Module Main.
Import Llm ResearchLogic.

(** The request and response models. The bounds that the request model
    declares on [depth] and [breadth] are [valid_request]. *)
Record ResearchRequest : Type := {
  query : string;
  depth : Z;
  breadth : Z;
  existing_learnings : option loc
}.

Definition valid_request (r : ResearchRequest) : Prop :=
  1 ≤ depth r ≤ 5 ∧ 1 ≤ breadth r ≤ 5.

Record ResearchResponse : Type := {
  result_file : string;
  error : option string
}.

(** The values interpolated into the prompt of [generate_final_report]; the
    key [report] of [research_data] is not among them. *)
Record final_prompt : Type := {
  prompt_query : string;
  prompt_sources : list string;
  prompt_conclusions : list json;
  prompt_directions : list json
}.

(** What the request handler uses from outside the repository, the first
    argument being the moment of the call:
    - [pro_generate_content_async]: the model created in
      [generate_final_report], asked for its answer;
    - [exn_str]: [str(e)];
    - [now_strftime], [urandom_hex], [md5_hexdigest]: the formatted time,
      eight random bytes in hexadecimal, and the MD5 digest in hexadecimal;
    - [path_exists]: [os.path.exists], true for a directory and for a file;
    - [makedirs], [open_log], [open_write], [write_text]: the file
      operations, which may raise: [os.makedirs], the opening of the log
      file by the file handler, [open(path, 'w')], and [f.write(content)]
      with the closing of the file;
    - [kept_text]: what the file holds after a write that raised. *)
Record Host : Type := {
  pro_generate_content_async : nat → final_prompt → result response;
  exn_str : exn → string;
  now_strftime : nat → string;
  urandom_hex : nat → string;
  md5_hexdigest : string → string;
  path_exists : nat → string → bool;
  makedirs : nat → string → result unit;
  open_log : nat → string → result unit;
  open_write : nat → string → result unit;
  write_text : nat → string → string → result unit;
  kept_text : nat → string → string → string
}.

(** The process and what it did to the disk: the research state, the
    directories made, the result files opened for writing with what they
    hold, and the log files the root logger writes to. *)
Record server : Type := {
  research : state;
  dirs : gset string;
  files : gmap string string;
  log_handlers : list string
}.

Definition S (A : Type) : Type := server → result A * server.

Global Instance S_ret : MRet S := fun _ a sv => (Ok a, sv).
Global Instance S_bind : MBind S := fun _ _ f m sv =>
  match m sv with
  | (Ok a, sv') => f a sv'
  | (Raised e, sv') => (Raised e, sv')
  end.

Definition raise {A} (e : exn) : S A := fun sv => (Raised e, sv).

(** [try: body except Exception as e: handler]; what the body did before it
    raised stays done. *)
Definition try_except {A} (body : S A) (handler : exn → S A) : S A := fun sv =>
  match body sv with
  | (Ok a, sv') => (Ok a, sv')
  | (Raised e, sv') => handler e sv'
  end.

(** A computation of the controller, run on the research state. *)
Definition lift {A} (m : M A) : S A := fun sv =>
  let '(r, st) := m (research sv) in
  (r, {| research := st; dirs := dirs sv; files := files sv;
         log_handlers := log_handlers sv |}).

Definition clock (sv : server) : nat := length (trace (research sv)).

(** *** utils/file_utils.py *)

Definition generate_result_files (h : Host) : S (string * string) := fun sv =>
  let made :=
    if path_exists h (clock sv) "results" then Ok (dirs sv)
    else _ ← makedirs h (clock sv) "results"; Ok ({["results"]} ∪ dirs sv) in
  match made with
  | Raised e => (Raised e, sv)
  | Ok ds =>
      let timestamp := now_strftime h (clock sv) in
      let hash_input := timestamp +:+ "-" +:+ urandom_hex h (clock sv) in
      let file_hash := str_prefix 8 (md5_hexdigest h hash_input) in
      let result_file := "results/result-" +:+ timestamp +:+ "-" +:+ file_hash +:+ ".md" in
      let log_file := "results/result-" +:+ timestamp +:+ "-" +:+ file_hash +:+ ".log" in
      (Ok (result_file, log_file),
       {| research := research sv; dirs := ds; files := files sv;
          log_handlers := log_handlers sv |})
  end.

(** A new file handler is added to the root logger. *)
Definition setup_file_logging (h : Host) (log_file : string) : S unit := fun sv =>
  match open_log h (clock sv) log_file with
  | Raised e => (Raised e, sv)
  | Ok _ =>
      (Ok tt, {| research := research sv; dirs := dirs sv; files := files sv;
                 log_handlers := log_handlers sv ++ [log_file] |})
  end.

(** [with open(result_file, 'w') as f: f.write(content)]: opening creates
    the file or empties it, before anything is written. *)
Definition save_research_result (h : Host) (result_file content : string) : S unit :=
  fun sv =>
  let holding (written : string) :=
    {| research := research sv; dirs := dirs sv;
       files := <[result_file := written]> (files sv);
       log_handlers := log_handlers sv |} in
  match open_write h (clock sv) result_file with
  | Raised e => (Raised e, sv)
  | Ok _ =>
      match write_text h (clock sv) result_file content with
      | Ok _ => (Ok tt, holding content)
      | Raised e => (Raised e, holding (kept_text h (clock sv) result_file content))
      end
  end.

(** *** main.py *)

(** [response.text] read without looking at [response.parts] first: the
    accessor raises when the response carries no part. *)
Definition text_of (r : response) : result string :=
  match parts r with
  | [] => Raised (OtherError "ValueError")
  | _ => Ok (response_text r)
  end.

(** The [try] block of [generate_final_report]. *)
Definition generate_final_report_try (h : Host) (t : nat) (p : final_prompt)
    : result string :=
  response ← pro_generate_content_async h t p;
  txt ← text_of response;
  if negb (nonempty txt) then Raised (OtherError "ValueError")
  else Ok txt.

Definition generate_final_report (h : Host) (t : nat) (query : string)
    (sources : list string) (conclusions directions : list json) : result string :=
  match generate_final_report_try h t
          {| prompt_query := query; prompt_sources := sources;
             prompt_conclusions := conclusions; prompt_directions := directions |} with
  | Ok txt => Ok txt
  | Raised e => Ok ("Произошла ошибка при генерации отчета: " +:+ exn_str h e)
  end.

Definition header : string :=
  "исследование создано с помощью canfly-avrora-deepresearch и содержит в себе информацию из открытых источников. 2005-2025 (С) canfly | культура твоего сознания"
  +:+ nl +:+ nl +:+ "---" +:+ nl.

Definition error_message (h : Host) (query : string) (e : exn) : string :=
  "Произошла ошибка во время исследования для запроса '" +:+ query +:+ "': "
  +:+ exn_str h e.

(** The block guarded by [try] in [run_research]. *)
Definition run_research_try (w : World) (h : Host) (request : ResearchRequest)
    (result_file : string) : S ResearchResponse :=
  o ← lift (perform_deep_research w (query request) (depth request) (breadth request)
              (existing_learnings request));
  conclusions ← lift (read_list (findings o));
  final ← (fun sv =>
             (generate_final_report h (clock sv) (query request) (sources o) conclusions
                (next_directions o), sv));
  _ ← (if negb (nonempty final) then raise (OtherError "ValueError") else mret tt);
  let final := header +:+ final in
  _ ← save_research_result h result_file final;
  mret {| result_file := result_file; error := None |}.

Definition run_research (w : World) (h : Host) (request : ResearchRequest)
    : S ResearchResponse :=
  names ← generate_result_files h;
  _ ← setup_file_logging h names.2;
  try_except (run_research_try w h request names.1)
    (fun e => mret {| result_file := ""; error := Some (error_message h (query request) e) |}).

End Main.


(** ** Vocabulary for the request handler *)

(** The controller's calls made while a request is handled. *)
Definition request_events (w : World) (h : Main.Host) (request : Main.ResearchRequest)
    (sv : Main.server) : list event :=
  drop (Main.clock sv) (trace (Main.research (Main.run_research w h request sv).2)).

(** A host without a [results] directory, on which directories and files can
    be made and opened: the model answers [final], and writing a file ends
    with [written], an empty file being left behind when it raises. *)
Definition working_host (final : result response) (written : result unit) : Main.Host := {|
  Main.pro_generate_content_async := fun _ _ => final;
  Main.exn_str := fun e => match e with OtherError what => what | _ => "error" end;
  Main.now_strftime := fun _ => "20250101-120000";
  Main.urandom_hex := fun _ => "00112233aabbccdd";
  Main.md5_hexdigest := fun _ => "0123456789abcdef0123456789abcdef";
  Main.path_exists := fun _ _ => false;
  Main.makedirs := fun _ _ => Ok tt;
  Main.open_log := fun _ _ => Ok tt;
  Main.open_write := fun _ _ => Ok tt;
  Main.write_text := fun _ _ _ => written;
  Main.kept_text := fun _ _ _ => ""
|}.

Definition fresh_server : Main.server :=
  {| Main.research := empty_state; Main.dirs := ∅; Main.files := ∅;
     Main.log_handlers := [] |}.

Definition sample_request : Main.ResearchRequest :=
  {| Main.query := "quantum error correction"; Main.depth := 2; Main.breadth := 2;
     Main.existing_learnings := None |}.

(** * Proofs *)

(** ** The Python primitives on small inputs *)

Example split_char_lines :
  split_char LF ("a" +:+ nl +:+ nl +:+ " b ") = ["a"; ""; " b "].
Proof. reflexivity. Qed.

Example strip_spaces : strip "  two words " = "two words".
Proof. reflexivity. Qed.

Example split_ws_runs : split_ws "  a  bc d " = ["a"; "bc"; "d"].
Proof. reflexivity. Qed.

Example codepoints_mixed :
  codepoints ("a" +:+ utf8 0xA0%N +:+ "b" +:+ utf8 0x3000%N +:+ utf8 0x1F600%N)
  = ["a"; utf8 0xA0%N; "b"; utf8 0x3000%N; utf8 0x1F600%N].
Proof. reflexivity. Qed.

Example split_ws_unicode :
  split_ws ("a" +:+ utf8 0xA0%N +:+ "b" +:+ utf8 0x3000%N +:+ " c") = ["a"; "b"; "c"].
Proof. reflexivity. Qed.

Example strip_unicode : strip (utf8 0xA0%N +:+ " two words" +:+ utf8 0x2028%N) = "two words".
Proof. reflexivity. Qed.

Example len_cyrillic : len "отчет" = 5.
Proof. reflexivity. Qed.

Example str_prefix_cyrillic : str_prefix 3 "отчет" = "отч".
Proof. reflexivity. Qed.

Example cleaned_text_no_break_space :
  Scraper.cleaned_text ("a" +:+ utf8 0xA0 +:+ "b" +:+ utf8 0x2003 +:+ nl +:+ " c") = "a b c".
Proof. reflexivity. Qed.

Example parse_queries_unicode :
  parse_queries ("alpha" +:+ nl +:+ utf8 0xA0 +:+ nl +:+
                 utf8 0x3000 +:+ "beta" +:+ utf8 0xA0 +:+ nl +:+ " gamma")
  = ["alpha"; "beta"; "gamma"].
Proof. reflexivity. Qed.

Example contains_html : contains "html" (lower "Text/HTML; charset=utf-8") = true.
Proof. reflexivity. Qed.

Example slice_to_negative : slice_to [1; 2; 3; 4; 5] (-1) = [1; 2; 3; 4].
Proof. reflexivity. Qed.

Example slice_from_last5 : slice_from [1; 2; 3; 4; 5; 6; 7] (-5) = [3; 4; 5; 6; 7].
Proof. reflexivity. Qed.

(** ** Components *)

Lemma scrape_try_document w t u d :
  Scraper.scrape_try w t u = Ok (Some d) → url d = u ∧ nonempty (text d) = true.
Proof.
  unfold Scraper.scrape_try.
  destruct (client_get w t u) as [resp|e]; simpl; [|discriminate].
  destruct (Scraper.raise_for_status resp); simpl; [|discriminate].
  destruct (negb (contains "html" _)); [discriminate|].
  destruct (soup_body_texts w _) as [[tags|]|e]; simpl; try discriminate.
  destruct (nonempty (join nl _)) eqn:Hne; simpl; [|discriminate].
  intros [= <-]. split; [reflexivity|exact Hne].
Qed.

Lemma scrape_content_returns w t u :
  ∃ r, Scraper.scrape_content w t u = Ok r ∧
       ∀ d, r = Some d → url d = u ∧ nonempty (text d) = true.
Proof.
  unfold Scraper.scrape_content.
  destruct (Scraper.scrape_try w t u) as [r|e] eqn:Htry.
  - exists r. split; [reflexivity|]. intros d ->. by eapply scrape_try_document.
  - exists None. split; [by destruct e|]. discriminate.
Qed.



Lemma find_urls_returns w t q n : ∃ urls, Search.find_urls w t q n = Ok urls.
Proof. unfold Search.find_urls. eauto. Qed.

Lemma generate_search_queries_raised w t c known b e :
  generate_search_queries w t c known b = Raised e → model_call_raises w model_search e.
Proof.
  unfold generate_search_queries.
  destruct (_call_gemini_api w t _ _) as [txt|e'] eqn:Hcall; simpl; [discriminate|].
  intros [= <-]. by eexists _, _.
Qed.

Lemma summarize_raised w t c known txt e :
  summarize_and_find_directions w t c known txt = Raised e →
  model_call_raises w model_analyze e.
Proof.
  unfold summarize_and_find_directions.
  destruct (_call_gemini_api w t _ _) as [r|e'] eqn:Hcall; simpl; [discriminate|].
  intros [= <-]. by eexists _, _.
Qed.

Lemma generate_final_report_raised w t q known e :
  generate_final_report w t q known = Raised e →
  known ≠ [] ∧ model_call_raises w model_report e.
Proof.
  unfold generate_final_report. destruct known as [|k known]; [discriminate|].
  destruct (_call_gemini_api w t _ _) as [r|e'] eqn:Hcall; simpl; [discriminate|].
  intros [= <-]. split; [done|]. by eexists _, _.
Qed.

Lemma model_call_raises_any w m e : model_call_raises w m e → model_raises w e.
Proof. intros (t & p & Hcall). by exists t, p, m. Qed.

Lemma model_call_reliable_never_raises w m e :
  model_call_reliable w m → ¬ model_call_raises w m e.
Proof. intros Hrel (t & p & Hcall). specialize (Hrel t p). by rewrite Hcall in Hrel. Qed.


(** ** The monad *)

Lemma bind_run {A B} (m : M A) (f : A → M B) st :
  (m ≫= f) st =
  match m st with
  | (Ok a, st') => f a st'
  | (Raised e, st') => (Raised e, st')
  end.
Proof. reflexivity. Qed.

Lemma ret_run {A} (a : A) st : (mret a : M A) st = (Ok a, st).
Proof. reflexivity. Qed.

Lemma bind_read_list {B} l (f : list json → M B) st :
  (read_list l ≫= f) st = f (contents (heap st) l) st.
Proof. reflexivity. Qed.

Lemma bind_extend {B} l xs (f : unit → M B) st :
  (extend l xs ≫= f) st
  = f tt {| heap := <[l := contents (heap st) l ++ xs]> (heap st); trace := trace st |}.
Proof. reflexivity. Qed.

Lemma bind_await {A B} (call : nat → result A) ev (f : A → M B) st :
  (await call ev ≫= f) st =
  let st' := {| heap := heap st; trace := trace st ++ [ev (call (length (trace st)))] |} in
  match call (length (trace st)) with
  | Ok a => f a st'
  | Raised e => (Raised e, st')
  end.
Proof. rewrite bind_run. unfold await. by destruct (call _). Qed.

(** ** Batches of searches and extractions *)

Lemma gather_searches w qs st :
  ∃ results sev,
    gather (map (search_task w) qs) st
    = (Ok results, {| heap := heap st; trace := trace st ++ sev |}) ∧ searches sev.
Proof.
  revert st. induction qs as [|q qs IH]; intros st.
  - exists [], []. rewrite app_nil_r. split; [by destruct st|constructor].
  - destruct (find_urls_returns w (length (trace st)) q 2) as [urls Hq].
    simpl. rewrite bind_run. unfold search_task at 1, await. rewrite Hq.
    destruct (IH {| heap := heap st; trace := trace st ++ [FindUrls q 2 (Ok urls)] |})
      as (results & sev & Hrest & Hsev).
    rewrite bind_run, Hrest. simpl. rewrite <- app_assoc.
    exists (urls :: results), (FindUrls q 2 (Ok urls) :: sev).
    split; [reflexivity|]. constructor; [by eexists _, _, _|exact Hsev].
Qed.

Lemma gather_extractions w urls st :
  ∃ results xev,
    gather (map (fun u => settle (scrape_task w u)) urls) st
    = (Ok results, {| heap := heap st; trace := trace st ++ xev |}) ∧
    extractions urls xev ∧
    map url (omap successful results) ⊆ urls.
Proof.
  revert st. induction urls as [|u urls IH]; intros st.
  - exists [], []. rewrite app_nil_r. split; [by destruct st|]. split; [constructor|done].
  - destruct (scrape_content_returns w (length (trace st)) u) as (r & Hu & Hdoc).
    simpl. rewrite bind_run. unfold settle at 1, scrape_task at 1, await. rewrite Hu.
    destruct (IH {| heap := heap st; trace := trace st ++ [ScrapeContent u (Ok r)] |})
      as (results & xev & Hrest & Hxev & Hgood).
    rewrite bind_run, Hrest. simpl. rewrite <- app_assoc.
    exists (Ok r :: results), (ScrapeContent u (Ok r) :: xev).
    split; [reflexivity|]. split; [constructor; [by eexists|exact Hxev]|].
    simpl. destruct r as [d|]; simpl.
    + destruct (Hdoc d eq_refl) as [Hurl _]. clear -Hgood Hurl.
      destruct (nonempty (text d)); simpl; [rewrite Hurl|]; set_solver.
    + clear -Hgood. set_solver.
Qed.

(** ** The dedup filter *)

Lemma add_new_urls_cons x urls acc :
  add_new_urls (x :: urls) acc =
  add_new_urls urls
    (if decide (x ∈ acc.2) then acc else (acc.1 ++ [x], {[x]} ∪ acc.2)).
Proof. reflexivity. Qed.

Lemma add_new_urls_spec urls acc v :
  NoDup acc → (∀ u, u ∈ acc → u ∈ v) →
  ∃ new,
    add_new_urls urls (acc, v) = (acc ++ new, v ∪ list_to_set new) ∧
    NoDup (acc ++ new) ∧ (∀ u, u ∈ new → u ∉ v) ∧ new ⊆ urls.
Proof.
  revert acc v. induction urls as [|x urls IH]; intros acc v Hnd Hin.
  - exists []. rewrite app_nil_r. simpl.
    split; [f_equal; set_solver|]. split; [done|]. split; [|done]. intros u Hu. set_solver.
  - rewrite add_new_urls_cons. simpl. destruct (decide (x ∈ v)) as [Hx|Hx].
    + destruct (IH acc v Hnd Hin) as (new & Heq & Hnd' & Hnew & Hsub).
      exists new. split; [exact Heq|]. split; [exact Hnd'|]. split; [exact Hnew|].
      clear -Hsub. set_solver.
    + destruct (IH (acc ++ [x]) ({[x]} ∪ v)) as (new & Heq & Hnd' & Hnew & Hsub).
      { apply NoDup_app. split; [exact Hnd|]. split; [|apply NoDup_singleton].
        intros u Hu Hu'. apply list_elem_of_singleton in Hu'. subst. by apply Hx, Hin. }
      { intros u [Hu|Hu]%elem_of_app; [apply Hin in Hu|apply list_elem_of_singleton in Hu];
          clear -Hu; set_solver. }
      exists (x :: new). rewrite Heq, <- app_assoc. simpl.
      split; [f_equal; clear; set_solver|].
      split; [by rewrite <- app_assoc in Hnd'|].
      split.
      * intros u [->|Hu]%elem_of_cons; [exact Hx|]. apply Hnew in Hu. clear -Hu. set_solver.
      * clear -Hsub. set_solver.
Qed.

Lemma new_urls_go results acc v :
  NoDup acc → (∀ u, u ∈ acc → u ∈ v) →
  ∃ new,
    fold_left (fun a urls => add_new_urls urls a) results (acc, v)
    = (acc ++ new, v ∪ list_to_set new) ∧
    NoDup (acc ++ new) ∧ (∀ u, u ∈ new → u ∉ v).
Proof.
  revert acc v. induction results as [|urls results IH]; intros acc v Hnd Hin.
  - exists []. rewrite app_nil_r. simpl.
    split; [f_equal; set_solver|]. split; [done|]. intros u Hu. set_solver.
  - simpl. destruct (add_new_urls_spec urls acc v Hnd Hin) as (new1 & -> & Hnd1 & Hnew1 & _).
    destruct (IH (acc ++ new1) (v ∪ list_to_set new1)) as (new2 & -> & Hnd2 & Hnew2).
    { exact Hnd1. }
    { intros u [Hu|Hu]%elem_of_app; [apply Hin in Hu|]; clear -Hu; set_solver. }
    exists (new1 ++ new2). rewrite <- app_assoc. split; [f_equal; clear; set_solver|].
    split; [by rewrite <- app_assoc in Hnd2|].
    intros u [Hu|Hu]%elem_of_app; [by apply Hnew1|].
    apply Hnew2 in Hu. clear -Hu. set_solver.
Qed.

Lemma new_urls_spec results v :
  ∃ urls,
    new_urls results v = (urls, v ∪ list_to_set urls) ∧
    NoDup urls ∧ (∀ u, u ∈ urls → u ∉ v).
Proof.
  destruct (new_urls_go results [] v) as (new & Heq & Hnd & Hnew).
  - constructor.
  - intros u Hu. by apply not_elem_of_nil in Hu.
  - exists new. split; [exact Heq|]. split; [exact Hnd|exact Hnew].
Qed.

(** ** The loop body and the loop against their relational form *)

Lemma batch_visited_nil s : batch_visited [] s = s.
Proof.
  unfold batch_visited, set_visited_urls. destruct s; simpl. f_equal. set_solver.
Qed.

Lemma iteration_sound w b s st r st' :
  iteration w b s st = (r, st') →
  ∃ evs, trace st' = trace st ++ evs ∧ iteration_run w b s (heap st) r (heap st') evs.
Proof.
  unfold iteration. rewrite bind_read_list, bind_await. cbv zeta.
  destruct (generate_search_queries w (length (trace st)) _ _ b) as [qs|e] eqn:Hq.
  2:{ intros [= <- <-]. eexists. split; [reflexivity|]. simpl. constructor.
      by eapply generate_search_queries_raised. }
  rewrite bind_run.
  match goal with |- context [gather _ ?st1] =>
    destruct (gather_searches w qs st1) as (results & sev & -> & Hsev) end.
  simpl heap. simpl trace.
  destruct (new_urls_spec results (visited_urls s)) as (urls & -> & Hnd & Hnew).
  destruct urls as [|u urls].
  { rewrite ret_run. fold (batch_visited [] s). rewrite batch_visited_nil.
    intros [= <- <-]. simpl. eexists. rewrite <- app_assoc.
    split; [reflexivity|]. by constructor. }
  rewrite bind_run.
  match goal with |- context [gather _ ?st1] =>
    destruct (gather_extractions w (u :: urls) st1) as (scraped & xev & -> & Hxev & Hgood) end.
  simpl heap. simpl trace.
  destruct (omap successful scraped) as [|d ds] eqn:Hdata.
  { rewrite ret_run. intros [= <- <-]. simpl. eexists. rewrite <- !app_assoc.
    split; [reflexivity|].
    apply (no_content w b s (heap st) qs sev (u :: urls) xev); done. }
  rewrite bind_read_list, bind_await. cbv zeta.
  simpl heap. simpl trace. simpl all_learnings. simpl current_query_context.
  match goal with |- context [summarize_and_find_directions w ?t ?c ?k ?txt] =>
    destruct (summarize_and_find_directions w t c k txt) as [a|e] eqn:Ha end.
  2:{ intros [= <- <-]. simpl. eexists. rewrite <- !app_assoc. split; [reflexivity|].
      eapply (synthesis_raised w b s (heap st) qs sev (u :: urls) xev); try done.
      by eapply summarize_raised. }
  rewrite bind_extend, ret_run. intros [= <- <-]. simpl.
  eexists. rewrite <- !app_assoc. split; [reflexivity|].
  eapply (synthesized w b s (heap st) qs sev (u :: urls) xev _ (map url (d :: ds)) a);
    done.
Qed.

Lemma research_loop_sound w b n s st r st' :
  research_loop w b n s st = (r, st') →
  ∃ evs, trace st' = trace st ++ evs ∧ loop_run w b n s (heap st) r (heap st') evs.
Proof.
  revert s st. induction n as [|n IH]; intros s st.
  - intros [= <- <-]. exists []. rewrite app_nil_r. split; [reflexivity|constructor].
  - simpl. rewrite bind_run.
    destruct (iteration w b s st) as [[s1|e] st1] eqn:Hit;
      apply iteration_sound in Hit as (evs1 & Htr1 & Hrun1).
    + intros (evs2 & Htr2 & Hrun2)%IH.
      exists (evs1 ++ evs2). rewrite Htr2, Htr1, <- app_assoc. split; [reflexivity|].
      by eapply loop_next.
    + intros [= <- <-]. exists evs1. split; [exact Htr1|]. by apply loop_abort.
Qed.

(** ** What the events of an iteration show *)

Lemma expander_calls_app evs1 evs2 :
  expander_calls (evs1 ++ evs2) = (expander_calls evs1 + expander_calls evs2)%nat.
Proof. unfold expander_calls. by rewrite List.filter_app, length_app. Qed.

Lemma report_calls_app evs1 evs2 :
  report_calls (evs1 ++ evs2) = (report_calls evs1 + report_calls evs2)%nat.
Proof. unfold report_calls. by rewrite List.filter_app, length_app. Qed.

Lemma extracted_urls_app evs1 evs2 :
  extracted_urls (evs1 ++ evs2) = extracted_urls evs1 ++ extracted_urls evs2.
Proof. apply omap_app. Qed.

Lemma syntheses_app evs1 evs2 : syntheses (evs1 ++ evs2) = syntheses evs1 ++ syntheses evs2.
Proof. apply omap_app. Qed.

Lemma searches_silent sev :
  searches sev →
  expander_calls sev = 0%nat ∧ extracted_urls sev = [] ∧ syntheses sev = [] ∧
  report_calls sev = 0%nat ∧ Forall (fun ev => raised_by ev = None) sev.
Proof.
  induction 1 as [|ev sev (q & n & urls & ->) _ (IH1 & IH2 & IH3 & IH4 & IH5)].
  - repeat split; constructor.
  - repeat split; try done. by constructor.
Qed.

Lemma extractions_silent urls xev :
  extractions urls xev →
  expander_calls xev = 0%nat ∧ extracted_urls xev = urls ∧ syntheses xev = [] ∧
  report_calls xev = 0%nat ∧ Forall (fun ev => raised_by ev = None) xev.
Proof.
  induction 1 as [|u ev urls xev (r & ->) _ (IH1 & IH2 & IH3 & IH4 & IH5)].
  - repeat split; constructor.
  - repeat split; try done; [simpl; by f_equal | by constructor].
Qed.

(** Rewrites the projections of a trace over the events of one iteration. *)
Ltac trace_facts :=
  repeat match goal with
  | H : searches _ |- _ =>
      apply searches_silent in H as (? & ? & ? & ? & ?)
  | H : extractions _ _ |- _ =>
      apply extractions_silent in H as (? & ? & ? & ? & ?)
  end;
  rewrite ?expander_calls_app, ?extracted_urls_app, ?syntheses_app, ?report_calls_app;
  repeat match goal with
  | H : expander_calls _ = _ |- _ => rewrite !H
  | H : extracted_urls _ = _ |- _ => rewrite !H
  | H : syntheses _ = _ |- _ => rewrite !H
  | H : report_calls _ = _ |- _ => rewrite !H
  end;
  cbn [expander_calls extracted_urls syntheses report_calls List.filter omap
       list_omap length app Nat.add].

(** ** The whole run against its relational form *)

Lemma open_session_spec q existing st :
  ∃ l h0,
    (open_session q existing st
     = (Ok (initial_session l q), {| heap := h0; trace := trace st |})) ∧
    (l ∉ dom (heap st)) ∧
    (∀ l', l' ∈ dom (heap st) → h0 !! l' = heap st !! l') ∧
    contents h0 l = existing_contents (heap st) existing.
Proof.
  unfold open_session. destruct existing as [l0|].
  - exists (fresh (dom (heap st))),
      (<[fresh (dom (heap st)) := contents (heap st) l0]> (heap st)).
    split; [reflexivity|]. pose proof (is_fresh (dom (heap st))) as Hfresh.
    split; [exact Hfresh|]. split.
    + intros l' Hl'. apply lookup_insert_ne. intros <-. by apply Hfresh.
    + unfold contents at 1. by rewrite lookup_insert_eq.
  - set (h1 := <[fresh (dom (heap st)) := []]> (heap st)).
    exists (fresh (dom h1)), (<[fresh (dom h1) := contents h1 (fresh (dom (heap st)))]> h1).
    split; [reflexivity|]. pose proof (is_fresh (dom h1)) as Hfresh.
    assert (dom (heap st) ⊆ dom h1) as Hsub.
    { unfold h1. rewrite dom_insert_L. clear. set_solver. }
    split; [clear -Hfresh Hsub; set_solver|]. split.
    + intros l' Hl'. rewrite lookup_insert_ne.
      * unfold h1. apply lookup_insert_ne. intros <-. by apply (is_fresh (dom (heap st))).
      * intros <-. apply Hfresh. clear -Hsub Hl'. set_solver.
    + unfold contents at 1. rewrite lookup_insert_eq. simpl.
      unfold contents, h1. by rewrite lookup_insert_eq.
Qed.

Lemma perform_deep_research_sound w q d b existing st r st' :
  perform_deep_research w q d b existing st = (r, st') →
  ∃ l h0 rs evs,
    (l ∉ dom (heap st)) ∧
    (∀ l', l' ∈ dom (heap st) → h0 !! l' = heap st !! l') ∧
    contents h0 l = existing_contents (heap st) existing ∧
    (research_session w q d b existing st
     = (rs, {| heap := heap st'; trace := trace st ++ evs |})) ∧
    loop_run w b (range_len d) (initial_session l q) h0 rs (heap st') evs ∧
    match rs with
    | Raised e => r = Raised e ∧ trace st' = trace st ++ evs
    | Ok s =>
        ∃ rr,
          rr = generate_final_report w (length (trace st ++ evs)) q
                 (contents (heap st') (all_learnings s)) ∧
          trace st' = trace st ++ evs ++
            [GenerateFinalReport q (contents (heap st') (all_learnings s)) rr] ∧
          r = (report ← rr; Ok (returned s report))
    end.
Proof.
  unfold perform_deep_research, research_session. rewrite !bind_run.
  destruct (open_session_spec q existing st) as (l & h0 & -> & Hl & Hh0 & Hc).
  destruct (research_loop _ _ _ _ _) as [rs [h1 t1]] eqn:Hloop.
  apply research_loop_sound in Hloop as Hrun. destruct Hrun as (evs & Htr & Hrun).
  simpl in Htr, Hrun. subst t1. intros Hres. exists l, h0, rs, evs.
  destruct rs as [s|e].
  - rewrite bind_read_list, bind_await in Hres. cbv zeta in Hres. simpl in Hres.
    destruct (generate_final_report w _ q _) as [report|e] eqn:Hrep.
    + rewrite ret_run in Hres. injection Hres as <- <-. simpl.
      repeat split; try done. eexists. split; [reflexivity|].
      rewrite Hrep, <- app_assoc. done.
    + injection Hres as <- <-. simpl.
      repeat split; try done. eexists. split; [reflexivity|].
      rewrite Hrep, <- app_assoc. done.
  - injection Hres as <- <-. simpl. repeat split; done.
Qed.

(** ** Invariants of the loop *)

(** The store: only the findings list of the session changes, and only by
    growing at its end. *)
Lemma iteration_store w b s h r h' evs :
  iteration_run w b s h r h' evs →
  (∀ l', l' ≠ all_learnings s → h' !! l' = h !! l') ∧
  contents h (all_learnings s) `prefix_of` contents h' (all_learnings s) ∧
  (∀ s', r = Ok s' → all_learnings s' = all_learnings s).
Proof.
  destruct 1; (split; [|split]); try (by intros s' [= <-]); try done.
  - intros l' Hl'. by apply lookup_insert_ne.
  - unfold contents at 2. rewrite lookup_insert_eq. simpl. by apply prefix_app_r.
Qed.

Lemma loop_store w b n s h r h' evs :
  loop_run w b n s h r h' evs →
  (∀ l', l' ≠ all_learnings s → h' !! l' = h !! l') ∧
  contents h (all_learnings s) `prefix_of` contents h' (all_learnings s) ∧
  (∀ s', r = Ok s' → all_learnings s' = all_learnings s).
Proof.
  induction 1 as [s h|n s h e h' evs Hit|n s h s1 h1 evs1 r h2 evs2 Hit Hloop IH].
  - split; [done|]. split; [done|]. by intros s' [= <-].
  - by apply iteration_store in Hit.
  - apply iteration_store in Hit as (Hframe1 & Hpre1 & Hall1).
    destruct IH as (Hframe2 & Hpre2 & Hall2).
    specialize (Hall1 s1 eq_refl). rewrite Hall1 in *.
    split; [|split].
    + intros l' Hl'. by rewrite Hframe2, Hframe1.
    + by etrans.
    + done.
Qed.

(** The count of Query Expander calls. *)
Lemma iteration_expander_calls w b s h r h' evs :
  iteration_run w b s h r h' evs → expander_calls evs = 1%nat.
Proof. destruct 1; trace_facts; done. Qed.

Lemma loop_expander_calls w b n s h r h' evs :
  loop_run w b n s h r h' evs →
  (expander_calls evs ≤ n)%nat ∧ (∀ s', r = Ok s' → expander_calls evs = n).
Proof.
  induction 1 as [s h|n s h e h' evs Hit|n s h s1 h1 evs1 r h2 evs2 Hit Hloop IH].
  - split; [done|]. done.
  - apply iteration_expander_calls in Hit. split; [lia|done].
  - apply iteration_expander_calls in Hit. destruct IH as [IH1 IH2].
    rewrite expander_calls_app. split; [lia|]. intros s' Hs'. rewrite (IH2 s' Hs'). lia.
Qed.

(** The dedup filter: the URLs extracted in an iteration are new and
    distinct, and end up in [visited_urls]; the sources are among them. *)
Lemma iteration_urls w b s h r h' evs :
  iteration_run w b s h r h' evs →
  fresh_batch s (extracted_urls evs) ∧
  (∀ s', r = Ok s' →
     visited_urls s' = visited_urls s ∪ list_to_set (extracted_urls evs) ∧
     all_sources s' ⊆ all_sources s ++ extracted_urls evs).
Proof.
  assert (fresh_batch s []) as Hnil.
  { split; [constructor|]. intros u Hu. by apply not_elem_of_nil in Hu. }
  destruct 1; trace_facts; rewrite ?app_nil_r; (split; [done|]); try done.
  all: intros s' [= <-]; simpl.
  - split; [set_solver|]. set_solver.
  - split; [done|]. set_solver.
  - split; [done|]. match goal with Hg : _ ⊆ _ |- _ => clear -Hg; set_solver end.
Qed.

Lemma loop_urls w b n s h r h' evs :
  loop_run w b n s h r h' evs →
  fresh_batch s (extracted_urls evs) ∧
  (∀ s', r = Ok s' →
     visited_urls s' = visited_urls s ∪ list_to_set (extracted_urls evs) ∧
     all_sources s' ⊆ all_sources s ++ extracted_urls evs).
Proof.
  induction 1 as [s h|n s h e h' evs Hit|n s h s1 h1 evs1 r h2 evs2 Hit Hloop IH].
  - split; [split; [constructor|]|].
    + intros u Hu. by apply not_elem_of_nil in Hu.
    + intros s' [= <-]. simpl. rewrite app_nil_r. split; [set_solver|done].
  - by apply iteration_urls in Hit.
  - apply iteration_urls in Hit as ([Hnd1 Hnew1] & Hok1).
    destruct (Hok1 s1 eq_refl) as [Hv1 Hs1].
    destruct IH as ([Hnd2 Hnew2] & Hok2).
    rewrite extracted_urls_app. split; [split|].
    + apply NoDup_app. split; [done|]. split; [|done].
      intros u Hu1 Hu2. apply Hnew2 in Hu2. rewrite Hv1 in Hu2. set_solver.
    + intros u [Hu|Hu]%elem_of_app; [by apply Hnew1|].
      apply Hnew2 in Hu. rewrite Hv1 in Hu. set_solver.
    + intros s' Hs'. destruct (Hok2 s' Hs') as [Hv2 Hs2].
      split; [rewrite Hv2, Hv1; set_solver|].
      clear -Hs1 Hs2. set_solver.
Qed.

(** The directions after the loop. *)
Lemma directions_after_app initial evs1 evs2 :
  directions_after (directions_after initial evs1) evs2
  = directions_after initial (evs1 ++ evs2).
Proof.
  unfold directions_after. rewrite syntheses_app.
  destruct (syntheses evs2) as [|r rs _] using rev_ind.
  - by rewrite app_nil_r.
  - by rewrite app_assoc, !last_snoc.
Qed.

Lemma iteration_directions w b s h s' h' evs :
  iteration_run w b s h (Ok s') h' evs →
  final_directions s' = directions_after (final_directions s) evs.
Proof.
  inversion 1; subst; unfold directions_after; trace_facts; done.
Qed.

Lemma loop_directions w b n s h r h' evs :
  loop_run w b n s h r h' evs →
  ∀ s', r = Ok s' → final_directions s' = directions_after (final_directions s) evs.
Proof.
  induction 1 as [s h|n s h e h' evs Hit|n s h s1 h1 evs1 r h2 evs2 Hit Hloop IH].
  - by intros s' [= <-].
  - done.
  - intros s' Hs'. rewrite (IH s' Hs').
    apply iteration_directions in Hit. by rewrite Hit, directions_after_app.
Qed.

(** An iteration without synthesis leaves findings, sources and directions
    as they were. *)
Lemma iteration_starved w b s h s' h' evs :
  iteration_run w b s h (Ok s') h' evs → syntheses evs = [] →
  h' = h ∧ all_sources s' = all_sources s ∧ final_directions s' = final_directions s.
Proof.
  inversion 1; subst; trace_facts; done.
Qed.

Lemma loop_starved w b n s h r h' evs :
  loop_run w b n s h r h' evs → syntheses evs = [] →
  ∀ s', r = Ok s' →
    h' = h ∧ all_sources s' = all_sources s ∧ final_directions s' = final_directions s.
Proof.
  induction 1 as [s h|n s h e h' evs Hit|n s h s1 h1 evs1 r h2 evs2 Hit Hloop IH].
  - by intros _ s' [= <-].
  - done.
  - rewrite syntheses_app. intros [Hs1 Hs2]%app_eq_nil s' Hs'.
    apply iteration_starved in Hit as (-> & <- & <-); [|done]. by apply IH.
Qed.

(** How an iteration ends. *)
Ltac solve_quiet :=
  unfold quiet;
  repeat first
    [ assumption | apply Forall_nil_2 | apply Forall_cons_2; [reflexivity|]
    | apply Forall_app_2 ].

Lemma iteration_end w b s h r h' evs :
  iteration_run w b s h r h' evs →
  report_calls evs = 0%nat ∧
  match r with
  | Ok _ => quiet evs
  | Raised e => model_raises w e ∧ aborted_by e evs
  end.
Proof.
  destruct 1; (split; [by trace_facts|]); trace_facts; try solve_quiet.
  - split; [by eapply model_call_raises_any|].
    eexists [], _. split; [reflexivity|]. by split; [constructor|].
  - split; [by eapply model_call_raises_any|].
    match goal with |- aborted_by _ (?a :: ?l ++ ?x ++ [?ev]) =>
      exists (a :: l ++ x), ev end.
    split; [simpl; by rewrite <- app_assoc|]. split; [solve_quiet|done].
Qed.

Lemma loop_end w b n s h r h' evs :
  loop_run w b n s h r h' evs →
  report_calls evs = 0%nat ∧
  match r with
  | Ok _ => quiet evs
  | Raised e => model_raises w e ∧ aborted_by e evs
  end.
Proof.
  induction 1 as [s h|n s h e h' evs Hit|n s h s1 h1 evs1 r h2 evs2 Hit Hloop IH].
  - split; [done|constructor].
  - by apply iteration_end in Hit.
  - apply iteration_end in Hit as [Hrep1 Hq1]. destruct IH as [Hrep2 IH].
    split; [rewrite report_calls_app; lia|].
    destruct r as [s'|e].
    + by apply Forall_app.
    + destruct IH as (Hraise & before & ev & -> & Hq2 & Hev & Hmodel).
      split; [done|]. exists (evs1 ++ before), ev. rewrite app_assoc.
      split; [done|]. split; [by apply Forall_app|done].
Qed.

(** What ends a loop before its last iteration: a call of the Query Expander
    or of the Insight Synthesizer to its model that raises. *)
Lemma iteration_abort_cause w b s h e h' evs :
  iteration_run w b s h (Raised e) h' evs →
  model_call_raises w model_search e ∨
  (model_call_raises w model_analyze e ∧ syntheses evs ≠ []).
Proof.
  inversion 1; subst; [by left|right]. split; [done|]. by trace_facts.
Qed.

Lemma loop_abort_cause w b n s h e h' evs :
  loop_run w b n s h (Raised e) h' evs →
  model_call_raises w model_search e ∨
  (model_call_raises w model_analyze e ∧ syntheses evs ≠ []).
Proof.
  remember (Raised e) as r eqn:Hr.
  induction 1 as [s h|n s h e' h' evs Hit|n s h s1 h1 evs1 r h2 evs2 Hit Hloop IH].
  - discriminate.
  - injection Hr as ->. by eapply iteration_abort_cause.
  - destruct (IH Hr) as [?|[? Hsyn]]; [by left|right]. split; [done|].
    rewrite syntheses_app. by intros [_ ?]%app_eq_nil.
Qed.

(** ** The whole run *)

Lemma events_of_app {A} (m : M A) st evs :
  trace (m st).2 = trace st ++ evs → events_of m st = evs.
Proof. unfold events_of. intros ->. by rewrite drop_app_length. Qed.

Lemma quiet_syntheses evs r :
  quiet evs → r ∈ syntheses evs → ∃ a, r = Ok a.
Proof.
  unfold syntheses. intros Hq (ev & Hev & Hr)%list_elem_of_omap.
  eapply Forall_forall in Hq; [|exact Hev].
  destruct ev; try discriminate. injection Hr as ->.
  destruct r as [a|e]; [by exists a|discriminate].
Qed.

(** How a run ends, with its events. *)
Lemma run_end w q d b existing st :
  let run := perform_deep_research w q d b existing st in
  match run.1 with
  | Ok _ => quiet (events_of (perform_deep_research w q d b existing) st)
  | Raised e =>
      model_raises w e ∧ aborted_by e (events_of (perform_deep_research w q d b existing) st)
  end.
Proof.
  cbv zeta. destruct (perform_deep_research w q d b existing st) as [r st'] eqn:Hrun.
  pose proof Hrun as Hrun'.
  apply perform_deep_research_sound in Hrun'
    as (l & h0 & rs & evs & _ & _ & _ & _ & Hloop & Hend).
  apply loop_end in Hloop as [_ Hloop]. simpl.
  destruct rs as [s|e].
  - destruct Hend as (rr & Hrr & Htr & ->).
    rewrite (events_of_app _ st
               (evs ++ [GenerateFinalReport q (contents (heap st') (all_learnings s)) rr]));
      [|by rewrite Hrun].
    destruct rr as [report|e]; simpl.
    + apply Forall_app_2; [done|]. by repeat constructor.
    + split; [eapply model_call_raises_any; by eapply generate_final_report_raised|].
      by eexists evs, _.
  - destruct Hend as [-> Htr].
    rewrite (events_of_app _ st evs); [done|by rewrite Hrun].
Qed.


(** * The claims *)

(** ** Query Expander *)

(** C4. Breadth bound: whatever text the model answers, the Query Expander
    returns a prefix of the parseable lines of that text, of length at most
    [breadth]; exactly [breadth] queries when the text has more parseable
    lines, and all of them otherwise. *)
Theorem query_expander_breadth_bound w t context known breadth txt :
  0 ≤ breadth →
  _call_gemini_api w t (SearchPrompt breadth context (last_five known)) model_search
    = Ok txt →
  ∃ queries,
    generate_search_queries w t context known breadth = Ok queries ∧
    queries `prefix_of` parse_queries txt ∧
    Z.of_nat (length queries) ≤ breadth ∧
    (breadth < Z.of_nat (length (parse_queries txt)) →
       Z.of_nat (length queries) = breadth) ∧
    (Z.of_nat (length (parse_queries txt)) ≤ breadth → queries = parse_queries txt).
Proof.
  intros Hb Hcall. unfold generate_search_queries. rewrite Hcall. simpl.
  unfold slice_to. destruct (Z.ltb_spec breadth 0) as [?|_]; [lia|].
  eexists. split; [reflexivity|]. split; [apply prefix_take|].
  rewrite length_take. repeat split; try lia.
  intros Hle. apply take_ge. lia.
Qed.

Lemma query_expander_breadth_bound_witness :
  ∃ queries,
    generate_search_queries five_lines_world 0 "topic" [] 3 = Ok queries ∧
    queries `prefix_of` ["alpha"; "beta"; "gamma"; "delta"; "epsilon"] ∧
    Z.of_nat (length queries) ≤ 3 ∧
    (3 < 5 → Z.of_nat (length queries) = 3) ∧
    (5 ≤ 3 → queries = ["alpha"; "beta"; "gamma"; "delta"; "epsilon"]).
Proof.
  apply (query_expander_breadth_bound five_lines_world 0 "topic" [] 3
           ("alpha" +:+ nl +:+ "  " +:+ nl +:+ " beta " +:+ nl +:+ nl +:+ "gamma" +:+
            nl +:+ "delta" +:+ nl +:+ "epsilon")); [lia|reflexivity].
Defined.

(** With a negative [breadth] the slice counts from the end. *)
Example query_expander_negative_breadth :
  generate_search_queries five_lines_world 0 "topic" [] (-1)
  = Ok ["alpha"; "beta"; "gamma"; "delta"].
Proof. reflexivity. Qed.

(** ** Report Composer *)

(** C7, counterexample. With one finding and a reporting model whose call
    raises, the Report Composer raises: no fallback document is returned. *)
Lemma report_composer_raises :
  generate_final_report failing_report_world 0 "quantum error correction"
    [JStr "codes protect qubits"]
  = Raised transport_error.
Proof. reflexivity. Qed.

(** C7, as the code has it. With no finding the fixed no-information document
    is returned, whatever the world (the model is not consulted). With
    findings, a model answer with text is the report, an answer without text
    gives the fallback document (an explanatory header, then one bullet per
    finding), and an exception of the model call is raised again. *)
Theorem report_composer_cases w t query known :
  (∀ w', generate_final_report w' t query [] = Ok (no_information_report query)) ∧
  (known ≠ [] →
   match _call_gemini_api w t (ReportPrompt query known) model_report with
   | Ok EmptyString =>
       generate_final_report w t query known = Ok (fallback_report w known) ∧
       ∃ header,
         fallback_report w known
         = header +:+ join nl (map (fun l => "- " +:+ py_format w l) known)
   | Ok report => generate_final_report w t query known = Ok report
   | Raised e => generate_final_report w t query known = Raised e
   end).
Proof.
  split; [done|]. intros Hne. unfold generate_final_report.
  destruct known as [|k known]; [done|].
  destruct (_call_gemini_api w t _ _) as [[|c report]|e]; simpl; try done.
  split; [done|]. by eexists.
Qed.

Lemma report_composer_cases_witness :
  generate_final_report
    (make_world scenario_hits (fun _ => 200) (text_response "findings")
       (Ok {| parts := []; candidates := 1 |}))
    0 "topic" [JStr "first"; JNull; JStr "second"]
  = Ok ("# Отчет не сгенерирован" +:+ nl +:+ nl +:+
        "Gemini не вернул текст отчета." +:+ nl +:+ nl +:+
        "Собранные выводы:" +:+ nl +:+
        "- first" +:+ nl +:+ "- ?" +:+ nl +:+ "- second").
Proof.
  pose proof (report_composer_cases
    (make_world scenario_hits (fun _ => 200) (text_response "findings")
       (Ok {| parts := []; candidates := 1 |}))
    0 "topic" [JStr "first"; JNull; JStr "second"]) as [_ Hcases].
  destruct (Hcases ltac:(discriminate)) as [Hfallback _]. exact Hfallback.
Defined.

(** ** Content Extractor *)



(** ** Research Controller *)

(** C1, counterexample. The analysing model fails during the only iteration:
    the run raises that exception, and the Report Composer was never called. *)
Lemma synthesis_failure_raises_run :
  (perform_deep_research failing_synthesis_world "quantum error correction" 1 2 None
     empty_state).1 = Raised transport_error ∧
  syntheses (events_of (perform_deep_research failing_synthesis_world
                          "quantum error correction" 1 2 None) empty_state)
  = [Raised transport_error] ∧
  report_calls (events_of (perform_deep_research failing_synthesis_world
                             "quantum error correction" 1 2 None) empty_state) = 0%nat.
Proof. vm_compute. done. Qed.

(** C1, as the code has it. No search and no extraction of a run ends with an
    exception. A run that returns made no call that raised; a run that raises
    does so because a call to the language model raised, that call (of the
    Query Expander, the Insight Synthesizer or the Report Composer) is the
    last call of the run, and its exception is the one the run raises. *)
Theorem run_raises_only_for_model w q d b existing st :
  (∀ ev, ev ∈ events_of (perform_deep_research w q d b existing) st →
         is_model_call ev = false → raised_by ev = None) ∧
  match (perform_deep_research w q d b existing st).1 with
  | Ok _ => quiet (events_of (perform_deep_research w q d b existing) st)
  | Raised e =>
      model_raises w e ∧
      aborted_by e (events_of (perform_deep_research w q d b existing) st)
  end.
Proof.
  pose proof (run_end w q d b existing st) as Hend. cbv zeta in Hend.
  split; [|exact Hend]. intros ev Hin Hkind.
  destruct (perform_deep_research w q d b existing st).1 as [o|e].
  - by eapply Forall_forall in Hend.
  - destruct Hend as (_ & before & ev' & Hevs & Hq & _ & Hmodel). rewrite Hevs in Hin.
    apply elem_of_app in Hin as [Hin|Hin%list_elem_of_singleton].
    + by eapply Forall_forall in Hq.
    + subst ev'. by rewrite Hkind in Hmodel.
Qed.

Lemma run_raises_only_for_model_witness :
  raised_by (ScrapeContent "siteB.example/qec" (Ok None)) = None ∧
  quiet (events_of (perform_deep_research missing_page_world "quantum error correction"
                      1 2 None) empty_state).
Proof.
  destruct (run_raises_only_for_model missing_page_world "quantum error correction"
              1 2 None empty_state) as [Hcalls Hend].
  split; [|exact Hend].
  apply Hcalls; [|reflexivity]. vm_compute. do 4 right. left.
Defined.

(** C2. URL dedup: the URLs handed to the Content Extractor during a run are
    pairwise distinct, and when the run returns, [visited_urls] is the set of
    those URLs and contains every returned source. *)
Theorem url_dedup_invariant w q d b existing st :
  NoDup (extracted_urls (events_of (perform_deep_research w q d b existing) st)) ∧
  ∀ o, (perform_deep_research w q d b existing st).1 = Ok o →
    ∃ s, (research_session w q d b existing st).1 = Ok s ∧
         visited_urls s
         = list_to_set (extracted_urls (events_of (perform_deep_research w q d b existing) st)) ∧
         ∀ u, u ∈ sources o → u ∈ visited_urls s.
Proof.
  destruct (perform_deep_research w q d b existing st) as [r st'] eqn:Hrun.
  pose proof Hrun as Hrun'.
  apply perform_deep_research_sound in Hrun'
    as (l & h0 & rs & evs & _ & _ & _ & Hsession & Hloop & Hend).
  apply loop_urls in Hloop as ([Hnd _] & Hok). simpl.
  assert (extracted_urls (events_of (perform_deep_research w q d b existing) st)
          = extracted_urls evs) as ->.
  { destruct rs as [s|e].
    - destruct Hend as (rr & _ & Htr & _).
      erewrite events_of_app; [|by rewrite Hrun].
      by rewrite extracted_urls_app, app_nil_r.
    - destruct Hend as [_ Htr]. erewrite events_of_app; [done|by rewrite Hrun]. }
  split; [exact Hnd|]. intros o ->.
  destruct rs as [s|e]; [|by destruct Hend].
  destruct Hend as (rr & _ & _ & Hr). destruct (Hok s eq_refl) as [Hv Hs].
  exists s. rewrite Hsession. split; [done|].
  split; [rewrite Hv; simpl; set_solver|].
  destruct rr as [report|e]; [|discriminate]. injection Hr as ->. simpl.
  intros u Hu%elem_of_elements%elem_of_list_to_set.
  rewrite Hv. apply Hs in Hu. simpl in Hu. clear -Hu. set_solver.
Qed.

Lemma url_dedup_invariant_witness :
  extracted_urls (events_of (perform_deep_research scenario_world
                               "quantum error correction" 1 2 None) empty_state)
  = ["siteA.example/qec"; "siteB.example/qec"] ∧
  ∃ s, (research_session scenario_world "quantum error correction" 1 2 None
          empty_state).1 = Ok s ∧
       ∀ u, u ∈ ["siteA.example/qec"; "siteB.example/qec"] → u ∈ visited_urls s.
Proof.
  split; [by vm_compute|].
  destruct (url_dedup_invariant scenario_world "quantum error correction" 1 2 None
              empty_state) as [_ Hsources].
  destruct (Hsources _ eq_refl) as (s & Hs & _ & Hin). exists s. split; [exact Hs|].
  intros u Hu. apply Hin. exact Hu.
Defined.

(** C3, counterexample. Depth 3, and the analysing model fails in the first
    iteration: the run raises after one Query Expander call, not three. *)
Lemma synthesis_failure_cuts_loop :
  (perform_deep_research failing_synthesis_world "quantum error correction" 3 2 None
     empty_state).1 = Raised transport_error ∧
  expander_calls (events_of (perform_deep_research failing_synthesis_world
                               "quantum error correction" 3 2 None) empty_state)
  = 1%nat.
Proof. vm_compute. done. Qed.

(** C3, as the code has it. A run never makes more Query Expander calls than
    [range(depth)] has iterations. It makes exactly that many, one per
    iteration and whatever the searches and extractions find, when no call of
    the Query Expander or of the Insight Synthesizer to its model raises: so
    in every run that returns, and in every run that raises because the
    Report Composer's model call raised. In the other runs the loop was ended
    by an exception of a Query Expander or Insight Synthesizer model call,
    and the Report Composer was not reached. *)
Theorem depth_bound w q d b existing st :
  (Z.of_nat (expander_calls (events_of (perform_deep_research w q d b existing) st))
   ≤ Z.max 0 d) ∧
  (model_call_reliable w model_search → model_call_reliable w model_analyze →
   Z.of_nat (expander_calls (events_of (perform_deep_research w q d b existing) st))
   = Z.max 0 d) ∧
  match (perform_deep_research w q d b existing st).1 with
  | Ok _ =>
      Z.of_nat (expander_calls (events_of (perform_deep_research w q d b existing) st))
      = Z.max 0 d ∧
      report_calls (events_of (perform_deep_research w q d b existing) st) = 1%nat
  | Raised e =>
      (Z.of_nat (expander_calls (events_of (perform_deep_research w q d b existing) st))
       = Z.max 0 d ∧
       report_calls (events_of (perform_deep_research w q d b existing) st) = 1%nat ∧
       model_call_raises w model_report e) ∨
      (report_calls (events_of (perform_deep_research w q d b existing) st) = 0%nat ∧
       (model_call_raises w model_search e ∨ model_call_raises w model_analyze e))
  end.
Proof.
  destruct (perform_deep_research w q d b existing st) as [r st'] eqn:Hrun.
  pose proof Hrun as Hrun'.
  apply perform_deep_research_sound in Hrun'
    as (l & h0 & rs & evs & _ & _ & _ & _ & Hloop & Hend).
  pose proof (loop_end _ _ _ _ _ _ _ _ Hloop) as [Hrep _].
  pose proof (loop_expander_calls _ _ _ _ _ _ _ _ Hloop) as [Hle Heq].
  unfold range_len in *. simpl.
  destruct rs as [s|e].
  - destruct Hend as (rr & Hrr & Htr & ->).
    erewrite events_of_app; [|by rewrite Hrun].
    rewrite expander_calls_app, report_calls_app, (Heq s eq_refl), Hrep.
    change (expander_calls [GenerateFinalReport _ _ _]) with 0%nat.
    change (report_calls [GenerateFinalReport _ _ _]) with 1%nat.
    split; [lia|]. split; [lia|].
    destruct rr as [report|e]; simpl; [split; [lia|done]|].
    left. split; [lia|]. split; [done|].
    symmetry in Hrr. by apply generate_final_report_raised in Hrr as [_ ?].
  - destruct Hend as [-> Htr]. erewrite events_of_app; [|by rewrite Hrun].
    apply loop_abort_cause in Hloop as Hcause. rewrite Hrep.
    split; [lia|]. split.
    + intros Hsearch Hanalyze. exfalso.
      destruct Hcause as [H|[H _]]; by eapply model_call_reliable_never_raises in H.
    + right. split; [done|]. destruct Hcause as [?|[? _]]; [by left|by right].
Qed.

(** Depth 3 with a search provider that finds nothing: three Query Expander
    calls, no extraction, no synthesis. *)
Example depth_bound_starving :
  let evs := events_of (perform_deep_research starving_world "quantum error correction"
                          3 2 None) empty_state in
  expander_calls evs = 3%nat ∧ extracted_urls evs = [] ∧ syntheses evs = [].
Proof. by vm_compute. Qed.

(** The loop, one iteration at a time. *)
Lemma research_loop_snoc w b n s st :
  research_loop w b (S n) s st =
  match research_loop w b n s st with
  | (Ok s', st') => iteration w b s' st'
  | (Raised e, st') => (Raised e, st')
  end.
Proof.
  revert s st. induction n as [|n IH]; intros s st.
  - change (research_loop w b 1 s st)
      with ((iteration w b s ≫= research_loop w b 0) st).
    transitivity (iteration w b s st); [|reflexivity].
    rewrite bind_run. by destruct (iteration w b s st) as [[s'|e] st'].
  - change (research_loop w b (S (S n)) s st)
      with ((iteration w b s ≫= research_loop w b (S n)) st).
    change (research_loop w b (S n) s st)
      with ((iteration w b s ≫= research_loop w b n) st).
    rewrite !bind_run. destruct (iteration w b s st) as [[s1|e] st1]; [apply IH|done].
Qed.

(** C5. Findings monotonicity: the findings after [i] iterations are a
    prefix of the findings after [i + 1] iterations; in particular their
    number does not decrease. *)
Theorem findings_append_only w b s st i :
  contents (heap (research_loop w b i s st).2) (all_learnings s)
    `prefix_of` contents (heap (research_loop w b (S i) s st).2) (all_learnings s) ∧
  (length (contents (heap (research_loop w b i s st).2) (all_learnings s))
   ≤ length (contents (heap (research_loop w b (S i) s st).2) (all_learnings s)))%nat.
Proof.
  assert (contents (heap (research_loop w b i s st).2) (all_learnings s)
            `prefix_of` contents (heap (research_loop w b (S i) s st).2) (all_learnings s))
    as Hprefix.
  { rewrite research_loop_snoc.
    destruct (research_loop w b i s st) as [[s'|e] st'] eqn:Hloop; [|done].
    apply research_loop_sound in Hloop as (evs & _ & Hloop).
    apply loop_store in Hloop as (_ & _ & Hall). rewrite <- (Hall s' eq_refl).
    destruct (iteration w b s' st') as [r st''] eqn:Hit.
    apply iteration_sound in Hit as (evs' & _ & Hit).
    by apply iteration_store in Hit as (_ & Hpre & _). }
  split; [exact Hprefix|by apply prefix_length].
Qed.

(** C6. Directions overwrite: when a run returns and at least one iteration
    performed synthesis, the returned directions are those of the last
    synthesis. *)
Theorem directions_overwrite w q d b existing st o :
  (perform_deep_research w q d b existing st).1 = Ok o →
  syntheses (events_of (perform_deep_research w q d b existing) st) ≠ [] →
  ∃ a,
    last (syntheses (events_of (perform_deep_research w q d b existing) st)) = Some (Ok a) ∧
    next_directions o = directions a.
Proof.
  pose proof (run_end w q d b existing st) as Hquiet. cbv zeta in Hquiet.
  destruct (perform_deep_research w q d b existing st) as [r st'] eqn:Hrun.
  pose proof Hrun as Hrun'.
  apply perform_deep_research_sound in Hrun'
    as (l & h0 & rs & evs & _ & _ & _ & _ & Hloop & Hend).
  simpl in *. intros ->.
  destruct rs as [s|e]; [|by destruct Hend].
  destruct Hend as (rr & _ & Htr & Hr).
  erewrite events_of_app in *; [|by rewrite Hrun..].
  rewrite syntheses_app, app_nil_r. intros Hsome.
  destruct (last (syntheses evs)) as [ra|] eqn:Hlast;
    [|by apply last_None in Hlast].
  destruct (quiet_syntheses _ ra Hquiet) as [a ->].
  { rewrite syntheses_app, app_nil_r. apply last_Some in Hlast as [pre ->]. set_solver. }
  exists a. split; [done|].
  destruct rr as [report|e]; [|discriminate]. injection Hr as ->. simpl.
  apply loop_directions with (s' := s) in Hloop; [|done].
  rewrite Hloop. unfold directions_after. by rewrite Hlast.
Qed.

Lemma directions_overwrite_witness :
  ∃ a,
    last (syntheses (events_of (perform_deep_research scenario_world
                                  "quantum error correction" 2 2 None) empty_state))
    = Some (Ok a) ∧
    [JStr "decoders"] = directions a.
Proof.
  apply (directions_overwrite scenario_world "quantum error correction" 2 2 None
           empty_state
           {| final_report := "report";
              sources := ["siteA.example/qec"; "siteB.example/qec"];
              findings := 1%nat;
              next_directions := [JStr "decoders"] |}).
  - by vm_compute.
  - by vm_compute.
Defined.

(** C9. The caller's list: a run given the list object [l] leaves that
    object as it was, returns its findings in another object, and those
    findings start with the contents of [l], in order. *)
Theorem existing_findings_preserved w q d b l st :
  l ∈ dom (heap st) →
  heap (perform_deep_research w q d b (Some l) st).2 !! l = heap st !! l ∧
  ∀ o, (perform_deep_research w q d b (Some l) st).1 = Ok o →
    findings o ≠ l ∧
    contents (heap st) l
      `prefix_of` contents (heap (perform_deep_research w q d b (Some l) st).2) (findings o).
Proof.
  intros Hl.
  destruct (perform_deep_research w q d b (Some l) st) as [r st'] eqn:Hrun.
  apply perform_deep_research_sound in Hrun
    as (l0 & h0 & rs & evs & Hfresh & Hh0 & Hc & _ & Hloop & Hend).
  apply loop_store in Hloop as (Hframe & Hpre & Hall). simpl in *.
  assert (l ≠ l0) as Hne by (intros ->; by apply Hfresh).
  split; [by rewrite Hframe, Hh0|].
  intros o ->. destruct rs as [s|e]; [|by destruct Hend].
  destruct Hend as (rr & _ & _ & Hr).
  destruct rr as [report|e]; [|discriminate]. injection Hr as ->. simpl.
  rewrite (Hall s eq_refl). split; [done|]. by rewrite <- Hc.
Qed.

Lemma existing_findings_preserved_witness :
  heap (perform_deep_research scenario_world "quantum error correction" 1 2 (Some 0%nat)
          caller_state).2 !! 0%nat = Some [JStr "known fact"] ∧
  [JStr "known fact"]
    `prefix_of` [JStr "known fact"; JStr "codes protect qubits"].
Proof.
  destruct (existing_findings_preserved scenario_world "quantum error correction" 1 2
              0%nat caller_state) as [Hsame Hprefix].
  { vm_compute. set_solver. }
  split; [exact Hsame|].
  destruct (Hprefix _ eq_refl) as [_ Hpre]. exact Hpre.
Defined.

(** C10, counterexample. The searches find nothing, so no iteration reaches
    the synthesis; there is one existing finding, and the reporting model
    fails: the run raises and returns no outcome. *)
Lemma starved_run_raises :
  syntheses (events_of (perform_deep_research starving_failing_report_world
                          "quantum error correction" 3 2 (Some 0%nat)) caller_state)
  = [] ∧
  (perform_deep_research starving_failing_report_world "quantum error correction" 3 2
     (Some 0%nat) caller_state).1 = Raised transport_error.
Proof. vm_compute. done. Qed.

(** C10, as the code has it. Take a run without any synthesis. It returns
    when no Query Expander call to the model raises and, unless there is no
    existing finding, the Report Composer's call does not raise either. When
    it returns, it gives back the existing findings unchanged, no source and
    no direction. When it does not, it raises the exception of a Query
    Expander model call, or that of the Report Composer's model call, which
    is made only when there are existing findings. *)
Theorem starved_run_outcome w q d b existing st :
  syntheses (events_of (perform_deep_research w q d b existing) st) = [] →
  (model_call_reliable w model_search →
   existing_contents (heap st) existing = [] ∨ model_call_reliable w model_report →
   is_ok (perform_deep_research w q d b existing st).1 = true) ∧
  match (perform_deep_research w q d b existing st).1 with
  | Ok o =>
      contents (heap (perform_deep_research w q d b existing st).2) (findings o)
      = existing_contents (heap st) existing ∧
      sources o = [] ∧ next_directions o = []
  | Raised e =>
      model_call_raises w model_search e ∨
      (existing_contents (heap st) existing ≠ [] ∧ model_call_raises w model_report e)
  end.
Proof.
  intros Hnone.
  cut (match (perform_deep_research w q d b existing st).1 with
       | Ok o =>
           contents (heap (perform_deep_research w q d b existing st).2) (findings o)
           = existing_contents (heap st) existing ∧
           sources o = [] ∧ next_directions o = []
       | Raised e =>
           model_call_raises w model_search e ∨
           (existing_contents (heap st) existing ≠ [] ∧
            model_call_raises w model_report e)
       end).
  { intros Hcases. split; [|exact Hcases].
    destruct (perform_deep_research w q d b existing st).1 as [o|e]; [done|].
    intros Hsearch Hreport. exfalso. destruct Hcases as [H|[Hne H]].
    - by eapply model_call_reliable_never_raises in H.
    - destruct Hreport as [?|Hreport]; [done|].
      by eapply model_call_reliable_never_raises in H. }
  revert Hnone.
  destruct (perform_deep_research w q d b existing st) as [r st'] eqn:Hrun.
  pose proof Hrun as Hrun'.
  apply perform_deep_research_sound in Hrun'
    as (l0 & h0 & rs & evs & _ & _ & Hc & _ & Hloop & Hend).
  simpl in *. destruct rs as [s|e].
  - destruct Hend as (rr & Hrr & Htr & ->).
    erewrite events_of_app; [|by rewrite Hrun].
    rewrite syntheses_app, app_nil_r. intros Hnone.
    pose proof (loop_store _ _ _ _ _ _ _ _ Hloop) as (_ & _ & Hall).
    eapply loop_starved in Hloop as (Hheap & Hsrc & Hdir); [|done..].
    pose proof (Hall s eq_refl) as Hl. simpl in Hl.
    rewrite Hheap, Hl, Hc in Hrr.
    destruct rr as [report|e]; simpl.
    + rewrite Hheap, Hl, Hsrc, Hdir. simpl.
      split; [done|]. split; [|done]. apply elements_empty.
    + right. symmetry in Hrr. by apply generate_final_report_raised in Hrr.
  - destruct Hend as [-> Htr]. erewrite events_of_app; [|by rewrite Hrun].
    intros Hnone. apply loop_abort_cause in Hloop as [?|[_ Hsyn]]; [by left|done].
Qed.

Lemma starved_run_outcome_witness :
  (model_call_reliable starving_world model_search →
   existing_contents (heap caller_state) (Some 0%nat) = [] ∨
   model_call_reliable starving_world model_report →
   is_ok (perform_deep_research starving_world "quantum error correction" 3 2
            (Some 0%nat) caller_state).1 = true) ∧
  match (perform_deep_research starving_world "quantum error correction" 3 2
           (Some 0%nat) caller_state).1 with
  | Ok o =>
      contents (heap (perform_deep_research starving_world "quantum error correction" 3 2
                        (Some 0%nat) caller_state).2) (findings o)
      = [JStr "known fact"] ∧
      sources o = [] ∧ next_directions o = []
  | Raised e =>
      model_call_raises starving_world model_search e ∨
      (existing_contents (heap caller_state) (Some 0%nat) ≠ [] ∧
       model_call_raises starving_world model_report e)
  end.
Proof.
  apply (starved_run_outcome starving_world "quantum error correction" 3 2
           (Some 0%nat) caller_state).
  by vm_compute.
Defined.

(** * Further properties *)

(** ** Strings as lists of bytes *)

Lemma bytes_app a b : bytes (a +:+ b) = bytes a ++ bytes b.
Proof. induction a as [|c a IH]; simpl; [done|]. by f_equal. Qed.

Lemma bytes_inj a b : bytes a = bytes b → a = b.
Proof.
  intros H. rewrite <- (String.string_of_list_ascii_of_string a),
    <- (String.string_of_list_ascii_of_string b). unfold bytes in H. by rewrite H.
Qed.

Lemma bytes_length s : length (bytes s) = String.length s.
Proof. induction s as [|c s IH]; simpl; [done|]. by rewrite IH. Qed.

Lemma string_app_assoc (a b c : string) : (a +:+ b) +:+ c = a +:+ b +:+ c.
Proof. apply bytes_inj. by rewrite !bytes_app, app_assoc. Qed.

Lemma string_app_nil_r (a : string) : a +:+ "" = a.
Proof. apply bytes_inj. by rewrite bytes_app, app_nil_r. Qed.

(** ** Code points *)

Lemma of_codepoints_app a b : of_codepoints (a ++ b) = of_codepoints a +:+ of_codepoints b.
Proof.
  induction a as [|cp a IH]; simpl; [done|]. by rewrite IH, string_app_assoc.
Qed.

Lemma absorb_of_codepoints k cps taken rest :
  absorb k cps = (taken, rest) → of_codepoints cps = taken +:+ of_codepoints rest.
Proof.
  revert cps taken rest. induction k as [|k IH]; intros [|cp cps] taken rest; simpl;
    try by intros [= <- <-].
  destruct (stray cp); [|by intros [= <- <-]].
  destruct (absorb k cps) as [a r] eqn:Habs. intros [= <- <-].
  by rewrite (IH _ _ _ Habs), string_app_assoc.
Qed.

(** Cutting a text into code points loses nothing. *)
Lemma of_codepoints_codepoints s : of_codepoints (codepoints s) = s.
Proof.
  induction s as [|c s IH]; simpl; [done|].
  destruct (absorb (width c) (codepoints s)) as [a r] eqn:Habs.
  change (String c (a +:+ of_codepoints r) = String c s).
  by rewrite <- (absorb_of_codepoints _ _ _ _ Habs), IH.
Qed.

Lemma codepoints_nil s : codepoints s = [] → s = "".
Proof. intros H. by rewrite <- (of_codepoints_codepoints s), H. Qed.

Lemma continuation_width c : is_continuation c = true → width c = 0%nat.
Proof.
  unfold is_continuation, width. intros [_ H]%andb_true_iff. cbv zeta. by rewrite H.
Qed.

Lemma point_continues_stray cp : point cp → continues cp = true → stray cp = true.
Proof.
  intros (c & k & -> & _ & Hlen) Hc. simpl in *.
  rewrite (continuation_width c Hc) in Hlen. destruct k; [done|simpl in Hlen; lia].
Qed.

Lemma absorb_spec k cps taken rest :
  segmented cps → absorb k cps = (taken, rest) →
  Forall (fun c => is_continuation c = true) (bytes taken) ∧
  (String.length taken ≤ k)%nat ∧ segmented rest ∧
  ((String.length taken < k)%nat →
   match rest with next :: _ => continues next = false | [] => True end).
Proof.
  revert cps taken rest. induction k as [|k IH]; intros [|cp cps] taken rest Hseg; simpl.
  - intros [= <- <-]. split; [exact (Forall_nil_2 _)|]. split; [simpl; lia|]. split; [done|lia].
  - intros [= <- <-]. split; [exact (Forall_nil_2 _)|]. split; [simpl; lia|]. split; [done|lia].
  - intros [= <- <-]. split; [exact (Forall_nil_2 _)|]. split; [simpl; lia|]. split; [done|lia].
  - destruct Hseg as (Hcp & Hadj & Hseg). destruct (stray cp) eqn:Hstray.
    + destruct (absorb k cps) as [a r] eqn:Habs. intros [= <- <-].
      destruct (IH _ _ _ Hseg Habs) as (Ha & Hlen & Hr & Hnext).
      destruct cp as [|c [|]]; try done. change (String c "" +:+ a) with (String c a).
      simpl in *.
      split; [by constructor|]. split; [lia|]. split; [done|]. intros ?. apply Hnext. lia.
    + intros [= <- <-]. split; [exact (Forall_nil_2 _)|]. split; [simpl; lia|].
      split; [done|]. intros _. destruct (continues cp) eqn:Hc; [|done].
      by rewrite (point_continues_stray cp) in Hstray.
Qed.

Lemma codepoints_segmented s : segmented (codepoints s).
Proof.
  induction s as [|c s IH]; simpl; [done|].
  destruct (absorb (width c) (codepoints s)) as [a r] eqn:Habs.
  destruct (absorb_spec _ _ _ _ IH Habs) as (Ha & Hlen & Hr & Hnext).
  split; [by exists c, a|]. split; [|done].
  simpl. intros Hc%Nat.leb_gt. by apply Hnext.
Qed.

Lemma codepoints_continuations k s :
  Forall (fun c => is_continuation c = true) (bytes k) →
  codepoints (k +:+ s) = ((fun c => String c "") <$> bytes k) ++ codepoints s.
Proof.
  induction k as [|c k IH]; simpl; [done|]. intros [Hc Hk]%Forall_cons.
  rewrite (continuation_width c Hc). simpl. by rewrite IH.
Qed.

Lemma absorb_strays n k cps :
  Forall (fun c => is_continuation c = true) (bytes k) → (String.length k ≤ n)%nat →
  absorb n (((fun c => String c "") <$> bytes k) ++ cps)
  = ((k +:+ (absorb (n - String.length k) cps).1), (absorb (n - String.length k) cps).2).
Proof.
  revert n. induction k as [|c k IH]; intros n; simpl.
  - intros _ _. rewrite Nat.sub_0_r. by destruct (absorb n cps).
  - intros [Hc Hk]%Forall_cons Hlen. destruct n as [|n]; [lia|]. simpl. rewrite Hc.
    rewrite IH by (done || lia). done.
Qed.

Lemma absorb_stop n cps :
  (n = 0%nat ∨ match cps with next :: _ => continues next = false | [] => True end) →
  absorb n cps = ("", cps).
Proof.
  intros [->|Hnext]; [by destruct cps|]. destruct n as [|n], cps as [|cp cps]; try done.
  simpl. destruct (stray cp) eqn:Hs; [|done].
  destruct cp as [|c [|]]; try done. simpl in *. congruence.
Qed.

(** A list of code points is what [codepoints] makes of its text. *)
Lemma segmented_codepoints cps : segmented cps → codepoints (of_codepoints cps) = cps.
Proof.
  induction cps as [|cp cps IH]; [done|]. intros ((c & k & -> & Hk & Hlen) & Hadj & Hseg).
  simpl. rewrite codepoints_continuations, IH by done.
  rewrite absorb_strays by done. rewrite absorb_stop; [simpl; by rewrite string_app_nil_r|].
  destruct (decide (width c - String.length k = 0)%nat) as [?|Hlt]; [by left|right].
  apply Hadj. simpl. apply Nat.leb_gt. lia.
Qed.

Lemma segmented_app_inv a b : segmented (a ++ b) → segmented a ∧ segmented b.
Proof.
  induction a as [|cp a IH]; simpl; [done|]. intros (Hcp & Hadj & Hseg).
  destruct (IH Hseg) as [Ha Hb]. split; [|done]. split; [done|]. split; [|done].
  intros Hc. specialize (Hadj Hc). by destruct a.
Qed.

Lemma segmented_app a b :
  segmented a → segmented b →
  match b with next :: _ => continues next = false | [] => True end →
  segmented (a ++ b).
Proof.
  intros Ha Hb Hnext. induction a as [|cp a IH]; simpl; [done|].
  destruct Ha as (Hcp & Hadj & Ha). split; [done|]. split; [|by apply IH].
  intros Hc. specialize (Hadj Hc). destruct a as [|x a]; [|done]. simpl. by destruct b.
Qed.

Lemma segmented_suffix a b : a `suffix_of` b → segmented b → segmented a.
Proof. intros [k ->] H. by apply segmented_app_inv in H as [_ H]. Qed.

Lemma segmented_prefix a b : a `prefix_of` b → segmented b → segmented a.
Proof. intros [k ->] H. by apply segmented_app_inv in H as [H _]. Qed.

Lemma codepoints_head c s :
  match codepoints (String c s) with
  | next :: _ => continues next = is_continuation c
  | [] => False
  end.
Proof. simpl. by destruct (absorb _ _). Qed.

(** Cutting in front of a first byte cuts between two code points. *)
Lemma codepoints_app a b :
  match b with String c _ => is_continuation c = false | EmptyString => True end →
  codepoints (a +:+ b) = codepoints a ++ codepoints b.
Proof.
  intros Hb. rewrite <- (segmented_codepoints (codepoints a ++ codepoints b)).
  - by rewrite of_codepoints_app, !of_codepoints_codepoints.
  - apply segmented_app; try apply codepoints_segmented.
    destruct b as [|c b]; [done|]. pose proof (codepoints_head c b) as Hhead.
    destruct (codepoints (String c b)); [done|]. by rewrite Hhead.
Qed.

Lemma codepoints_space s : codepoints (String " " s) = " " :: codepoints s.
Proof. reflexivity. Qed.

(** ** Whitespace *)

Lemma whitespace_shape sp :
  isspace sp = true → point sp ∧ complete sp = true ∧ continues sp = false.
Proof.
  unfold isspace. intros Hin%bool_decide_eq_true.
  assert (Forall (fun cp => point cp ∧ complete cp = true ∧ continues cp = false)
            (utf8 <$> whitespace)) as Hall.
  { set (l := utf8 <$> whitespace). vm_compute in l. subst l.
    repeat (apply Forall_cons_2;
      [split; [eexists _, _; split; [reflexivity|]; split;
                 [unfold bytes; simpl; repeat constructor|vm_compute; lia]|by split]|]).
    constructor. }
  eapply Forall_forall in Hall; [exact Hall|exact Hin].
Qed.

Lemma isspace_nl : isspace nl = true.
Proof. reflexivity. Qed.

(** A code point that is no whitespace holds no line feed. *)
Lemma point_one_line cp : point cp → isspace cp = false → one_line cp.
Proof.
  intros (c & k & -> & Hk & Hlen) Hsp. unfold one_line. simpl.
  intros [Hc|Hin]%elem_of_cons.
  - subst c. change (width LF) with 0%nat in Hlen. destruct k; [done|simpl in Hlen; lia].
  - eapply Forall_forall in Hk; [|exact Hin]. done.
Qed.

Lemma one_line_app a b : one_line (a +:+ b) ↔ one_line a ∧ one_line b.
Proof. unfold one_line. rewrite bytes_app, not_elem_of_app. done. Qed.

Lemma of_codepoints_one_line cps :
  segmented cps → Forall (fun cp => isspace cp = false) cps → one_line (of_codepoints cps).
Proof.
  induction cps as [|cp cps IH]; simpl; [intros; by apply not_elem_of_nil|].
  intros (Hcp & _ & Hseg) [Hsp Hall]%Forall_cons. apply one_line_app.
  split; [by apply point_one_line|by apply IH].
Qed.

Lemma of_codepoints_nonempty cps : segmented cps → cps ≠ [] → of_codepoints cps ≠ "".
Proof. destruct cps as [|cp cps]; [done|]. by intros ((c & k & -> & _) & _) _. Qed.

(** ** [split] on whitespace and [join] *)

Lemma spaceless_one_line s : spaceless s → one_line s.
Proof.
  intros Hs. rewrite <- (of_codepoints_codepoints s).
  apply of_codepoints_one_line; [apply codepoints_segmented|done].
Qed.

Lemma word_of_codepoints g :
  segmented g → g ≠ [] → Forall (fun cp => isspace cp = false) g → word (of_codepoints g).
Proof.
  intros Hseg Hne Hg. split; [by apply of_codepoints_nonempty|].
  unfold spaceless. by rewrite segmented_codepoints.
Qed.

Lemma split_ws_go_words g cur cps :
  segmented (g ++ cps) → Forall (fun cp => isspace cp = false) g →
  match cur with None => g = [] | Some acc => g ≠ [] ∧ acc = of_codepoints g end →
  Forall word (split_ws_go cur cps).
Proof.
  revert g cur. induction cps as [|cp cps IH]; intros g cur Hseg Hg Hcur; simpl.
  - destruct cur as [acc|]; [|constructor]. destruct Hcur as [Hne ->].
    rewrite app_nil_r in Hseg. repeat constructor; by apply word_of_codepoints.
  - destruct (isspace cp) eqn:Hcp.
    + apply Forall_app. split.
      * destruct cur as [acc|]; [|constructor]. destruct Hcur as [Hne ->].
        apply segmented_app_inv in Hseg as [Hseg _].
        repeat constructor; by apply word_of_codepoints.
      * apply (IH [] None); [|constructor|done].
        by apply segmented_app_inv in Hseg as [_ (_ & _ & Hseg)].
    + apply (IH (g ++ [cp])).
      * by rewrite <- app_assoc.
      * apply Forall_app. by split; [|repeat constructor].
      * split; [by destruct g|]. rewrite of_codepoints_app. simpl. rewrite string_app_nil_r.
        destruct cur as [acc|]; [by destruct Hcur as [_ ->]|by rewrite Hcur].
Qed.

Lemma split_ws_words s : Forall word (split_ws s).
Proof.
  apply (split_ws_go_words [] None); [apply codepoints_segmented|constructor|done].
Qed.

(** Reading a run of code points that are no whitespace adds them to the
    word being read. *)
Lemma split_ws_go_run g acc cps :
  Forall (fun cp => isspace cp = false) g →
  split_ws_go (Some acc) (g ++ cps) = split_ws_go (Some (acc +:+ of_codepoints g)) cps.
Proof.
  revert acc. induction g as [|cp g IH]; intros acc; simpl.
  - by rewrite string_app_nil_r.
  - intros [Hcp Hg]%Forall_cons. rewrite Hcp. simpl. by rewrite IH, string_app_assoc.
Qed.

Lemma split_ws_go_word w cps :
  word w → split_ws_go None (codepoints w ++ cps) = split_ws_go (Some w) cps.
Proof.
  intros [Hne Hw]. unfold spaceless in Hw.
  destruct (codepoints w) as [|cp g] eqn:Hg; [by apply codepoints_nil in Hg|].
  apply Forall_cons in Hw as [Hcp Hw]. simpl. rewrite Hcp. simpl.
  rewrite split_ws_go_run by done. f_equal. f_equal.
  by rewrite <- (of_codepoints_codepoints w), Hg.
Qed.

Lemma join_cons2 sep (a b : string) rest :
  join sep (a :: b :: rest) = a +:+ sep +:+ join sep (b :: rest).
Proof. reflexivity. Qed.

Lemma split_ws_join ws : Forall word ws → split_ws (join " " ws) = ws.
Proof.
  unfold split_ws. induction 1 as [|w ws Hw Hws IH]; [done|].
  destruct ws as [|w' ws].
  - simpl. rewrite <- (app_nil_r (codepoints w)). by rewrite split_ws_go_word.
  - rewrite join_cons2. change (" " +:+ ?s) with (String " " s).
    rewrite codepoints_app, codepoints_space by done.
    rewrite split_ws_go_word by done. simpl. f_equal. exact IH.
Qed.

Lemma one_line_join sep ws :
  one_line sep → Forall one_line ws → one_line (join sep ws).
Proof.
  intros Hsep. induction 1 as [|w ws Hw Hws IH]; [by apply not_elem_of_nil|].
  destruct ws as [|w' ws]; [done|].
  rewrite join_cons2. by rewrite !one_line_app.
Qed.

Lemma join_empty sep ws :
  Forall (fun w => w ≠ "") ws → join sep ws = "" → ws = [].
Proof.
  destruct 1 as [|w ws Hw Hws]; [done|]. intros Hjoin. exfalso. apply Hw.
  destruct ws as [|w' ws]; [done|]. rewrite join_cons2 in Hjoin. by destruct w.
Qed.

(** ** [split] on a character *)

Lemma split_char_one_line s : one_line s → split_char LF s = [s].
Proof.
  induction s as [|c s IH]; [done|]. unfold one_line. simpl.
  intros [Hc Hs]%not_elem_of_cons.
  destruct (Ascii.eqb_spec c LF) as [->|_]; [done|]. by rewrite IH.
Qed.

Lemma split_char_line a b :
  one_line a → split_char LF (a +:+ String LF b) = a :: split_char LF b.
Proof.
  induction a as [|c a IH]; [done|]. unfold one_line. simpl.
  intros [Hc Ha]%not_elem_of_cons.
  destruct (Ascii.eqb_spec c LF) as [->|_]; [done|]. by rewrite IH.
Qed.

Lemma split_char_join parts :
  parts ≠ [] → Forall one_line parts → split_char LF (join nl parts) = parts.
Proof.
  intros Hne Hparts. induction Hparts as [|p parts Hp Hparts IH]; [done|].
  destruct parts as [|p' parts]; [by apply split_char_one_line|].
  rewrite join_cons2. change (nl +:+ ?s) with (String LF s).
  rewrite split_char_line by done. f_equal. by apply IH.
Qed.

Lemma split_char_lines_one_line s : Forall one_line (split_char LF s).
Proof.
  induction s as [|c s IH]; simpl.
  - repeat constructor. by apply not_elem_of_nil.
  - destruct (Ascii.eqb_spec c LF) as [->|Hc].
    + constructor; [by apply not_elem_of_nil|done].
    + destruct (split_char LF s) as [|w ws]; simpl.
      * repeat constructor. unfold one_line. simpl. set_solver.
      * apply Forall_cons in IH as [Hw Hws]. constructor; [|done].
        unfold one_line in *. simpl. set_solver.
Qed.

(** ** utils/scraper.py *)

Lemma cleaned_text_words s : split_ws (Scraper.cleaned_text s) = split_ws s.
Proof. unfold Scraper.cleaned_text. apply split_ws_join, split_ws_words. Qed.

Lemma cleaned_text_idemp s :
  Scraper.cleaned_text (Scraper.cleaned_text s) = Scraper.cleaned_text s.
Proof. unfold Scraper.cleaned_text at 1. by rewrite cleaned_text_words. Qed.

Lemma cleaned_text_one_line s : one_line (Scraper.cleaned_text s).
Proof.
  apply one_line_join; [by unfold one_line; set_solver|].
  eapply Forall_impl; [apply split_ws_words|].
  intros w [_ Hw]. by apply spaceless_one_line.
Qed.

Lemma cleaned_text_empty s : Scraper.cleaned_text s = "" ↔ split_ws s = [].
Proof.
  split.
  - apply join_empty. eapply Forall_impl; [apply split_ws_words|]. by intros w [Hw _].
  - unfold Scraper.cleaned_text. by intros ->.
Qed.

(** X1. Whitespace normalisation: [cleaned_text] keeps the words of its
    argument, joined by single spaces, so applying it again changes nothing;
    the result has no line feed and is empty exactly when there is no word. *)
Theorem cleaned_text_normal_form s :
  split_ws (Scraper.cleaned_text s) = split_ws s ∧
  Scraper.cleaned_text (Scraper.cleaned_text s) = Scraper.cleaned_text s ∧
  one_line (Scraper.cleaned_text s) ∧
  (Scraper.cleaned_text s = "" ↔ split_ws s = []).
Proof.
  split; [apply cleaned_text_words|].
  split; [apply cleaned_text_idemp|].
  split; [apply cleaned_text_one_line|apply cleaned_text_empty].
Qed.

(** The non-empty normalised element texts of a page. *)
Lemma text_parts_lines tags :
  Forall (fun p => p ≠ "" ∧ one_line p)
    (List.filter nonempty (map Scraper.cleaned_text tags)).
Proof.
  apply Forall_forall. intros p Hp%list_elem_of_In%List.filter_In.
  destruct Hp as [Hin Hne]. split; [by destruct p|].
  apply List.in_map_iff in Hin as (tag & <- & _).
  apply cleaned_text_one_line.
Qed.

Lemma scrape_content_document w t u d :
  Scraper.scrape_content w t u = Ok (Some d) →
  ∃ resp tags,
    client_get w t u = Ok resp ∧
    200 ≤ status_code resp < 300 ∧
    contains "html" (lower (default "" (content_type resp))) = true ∧
    soup_body_texts w (html_content resp) = Ok (Some tags) ∧
    List.filter nonempty (map Scraper.cleaned_text tags) ≠ [] ∧
    d = {| url := u;
           text := join nl (List.filter nonempty (map Scraper.cleaned_text tags)) |}.
Proof.
  unfold Scraper.scrape_content, Scraper.scrape_try, Scraper.raise_for_status.
  destruct (client_get w t u) as [resp|e]; simpl; [|by destruct e].
  destruct (Z.leb_spec 200 (status_code resp)), (Z.ltb_spec (status_code resp) 300);
    simpl; try done.
  destruct (contains "html" _) eqn:Hhtml; simpl; [|done].
  destruct (soup_body_texts w _) as [[tags|]|e] eqn:Hsoup; simpl;
    [|done|by destruct e].
  destruct (join nl _) eqn:Htext; simpl; [done|].
  intros [= <-]. exists resp, tags. rewrite Htext.
  repeat split; try done; try lia. by intros Hnil; rewrite Hnil in Htext.
Qed.

(** X2. Success of an extraction, exactly: [scrape_content] returns a
    document if and only if the fetch answered with a 2xx status and a
    content type containing "html" (in any letter case), the page has a
    body, and at least one of its elements has text; the document then
    carries the requested URL and the normalised element texts joined by
    line feeds. *)
Theorem scrape_content_success_iff w t u d :
  Scraper.scrape_content w t u = Ok (Some d) ↔
  ∃ resp tags,
    client_get w t u = Ok resp ∧
    200 ≤ status_code resp < 300 ∧
    contains "html" (lower (default "" (content_type resp))) = true ∧
    soup_body_texts w (html_content resp) = Ok (Some tags) ∧
    List.filter nonempty (map Scraper.cleaned_text tags) ≠ [] ∧
    d = {| url := u;
           text := join nl (List.filter nonempty (map Scraper.cleaned_text tags)) |}.
Proof.
  split; [apply scrape_content_document|].
  unfold Scraper.scrape_content, Scraper.scrape_try, Scraper.raise_for_status.
  intros (resp & tags & -> & Hs & Hh & Hsoup & Hparts & ->). simpl.
  destruct (Z.leb_spec 200 (status_code resp)), (Z.ltb_spec (status_code resp) 300);
    try lia. simpl. rewrite Hh. simpl. rewrite Hsoup. simpl.
  destruct (join nl _) eqn:Htext; simpl; [|done].
  apply join_empty in Htext; [done|].
  eapply Forall_impl; [apply text_parts_lines|]. by intros p [Hp _].
Qed.

(** X3. The text of an extracted document, line by line: splitting it at line
    feeds gives back the non-empty normalised element texts, one line per
    element, in document order. *)
Theorem scrape_content_lines w t u d :
  Scraper.scrape_content w t u = Ok (Some d) →
  ∃ resp tags,
    client_get w t u = Ok resp ∧
    soup_body_texts w (html_content resp) = Ok (Some tags) ∧
    split_char LF (text d) = List.filter nonempty (map Scraper.cleaned_text tags) ∧
    Forall (fun line => line ≠ "" ∧ Scraper.cleaned_text line = line)
      (split_char LF (text d)).
Proof.
  intros (resp & tags & Hget & _ & _ & Hsoup & Hparts & ->)%scrape_content_document.
  exists resp, tags. split; [done|]. split; [done|]. simpl.
  rewrite split_char_join; [|done|].
  2:{ eapply Forall_impl; [apply text_parts_lines|]. by intros p [_ Hp]. }
  split; [done|]. apply Forall_forall.
  intros p Hp%list_elem_of_In%List.filter_In. destruct Hp as [Hin Hne].
  split; [by destruct p|].
  apply List.in_map_iff in Hin as (tag & <- & _). apply cleaned_text_idemp.
Qed.

Lemma scrape_content_lines_witness :
  ∃ resp tags,
    client_get page_world 0 "a.example" = Ok resp ∧
    soup_body_texts page_world (html_content resp) = Ok (Some tags) ∧
    split_char LF ("Error correction" +:+ nl +:+ "Surface codes")
    = List.filter nonempty (map Scraper.cleaned_text tags) ∧
    Forall (fun line => line ≠ "" ∧ Scraper.cleaned_text line = line)
      (split_char LF ("Error correction" +:+ nl +:+ "Surface codes")).
Proof.
  apply (scrape_content_lines page_world 0 "a.example"
           {| url := "a.example";
              text := "Error correction" +:+ nl +:+ "Surface codes" |}).
  reflexivity.
Defined.

(** ** utils/search.py *)

Lemma collect_hrefs_take n rows urls :
  Z.of_nat (length urls) < Z.max 1 n →
  Search.collect_hrefs n rows urls
  = urls ++ take (Z.to_nat (Z.max 1 n) - length urls) (hrefs rows).
Proof.
  revert urls. induction rows as [|r rows IH]; intros urls Hlen; simpl.
  - by rewrite take_nil, app_nil_r.
  - destruct r as [|[h|]]; simpl; try by apply IH.
    rewrite length_app. simpl.
    destruct (Z.leb_spec n (Z.of_nat (length urls + 1))) as [Hfull|Hmore].
    + replace (Z.to_nat (Z.max 1 n) - length urls)%nat with 1%nat by lia.
      simpl. by rewrite ?take_0.
    + rewrite IH by (rewrite length_app; simpl; lia).
      rewrite length_app, <- app_assoc. simpl. f_equal.
      replace (Z.to_nat (Z.max 1 n) - length urls)%nat
        with (S (Z.to_nat (Z.max 1 n) - (length urls + 1)))%nat by lia.
      done.
Qed.

(** [find_urls] never raises. It asks the provider for twice the wanted
    number of results and returns, in the provider's order, the first
    [max 1 num_results] [href] values of the well-formed entries, skipping
    the others; when the provider raises it returns the empty list. *)
Lemma find_urls_take w t query num_results :
  Search.find_urls w t query num_results
  = Ok match ddgs_text w t query (num_results * 2) with
       | Ok rows => take (Z.to_nat (Z.max 1 num_results)) (hrefs rows)
       | Raised _ => []
       end.
Proof.
  unfold Search.find_urls. destruct (ddgs_text w t query _) as [rows|e]; [|done].
  rewrite collect_hrefs_take by (simpl; lia). simpl. by rewrite Nat.sub_0_r.
Qed.

(** X4. The contract of [find_urls]: for a wanted number of at least one it
    never raises and returns no more URLs than wanted; they are the first
    [href] values of the provider's well-formed entries, in the provider's
    order, and exactly as many as wanted as soon as the provider's list
    holds enough of them; when the provider raises, the list is empty. *)
Theorem find_urls_bound w t query num_results :
  1 ≤ num_results →
  ∃ urls,
    Search.find_urls w t query num_results = Ok urls ∧
    Z.of_nat (length urls) ≤ num_results ∧
    (∀ rows, ddgs_text w t query (num_results * 2) = Ok rows →
       urls `prefix_of` hrefs rows ∧
       (num_results ≤ Z.of_nat (length (hrefs rows)) →
        Z.of_nat (length urls) = num_results)) ∧
    (∀ e, ddgs_text w t query (num_results * 2) = Raised e → urls = []).
Proof.
  intros Hn. rewrite find_urls_take. eexists. split; [reflexivity|].
  destruct (ddgs_text w t query _) as [rows|e].
  - rewrite length_take. split; [lia|]. split; [|discriminate]. intros ? [= <-].
    split; [apply prefix_take|lia].
  - simpl. split; [lia|]. split; [discriminate|done].
Qed.

Lemma find_urls_bound_witness :
  ∃ urls,
    Search.find_urls page_world 0 "qec" 2 = Ok urls ∧
    Z.of_nat (length urls) ≤ 2 ∧
    (∀ rows, ddgs_text page_world 0 "qec" (2 * 2) = Ok rows →
       urls `prefix_of` hrefs rows ∧
       (2 ≤ Z.of_nat (length (hrefs rows)) → Z.of_nat (length urls) = 2)) ∧
    (∀ e, ddgs_text page_world 0 "qec" (2 * 2) = Raised e → urls = []).
Proof. apply (find_urls_bound page_world 0 "qec" 2). lia. Defined.

(** X5. The limit is tested only after a URL was added: with a wanted number of
    zero or less, [find_urls] still returns the first well-formed entry. *)
Theorem find_urls_nonpositive_limit w t query num_results rows h :
  num_results ≤ 0 →
  ddgs_text w t query (num_results * 2) = Ok rows →
  head (hrefs rows) = Some h →
  Search.find_urls w t query num_results = Ok [h].
Proof.
  intros Hn Hrows Hh. rewrite find_urls_take, Hrows.
  replace (Z.to_nat (Z.max 1 num_results)) with 1%nat by lia.
  destruct (hrefs rows) as [|h' hs]; [done|]. injection Hh as ->. simpl. by rewrite ?take_0.
Qed.

Lemma find_urls_nonpositive_limit_witness :
  Search.find_urls page_world 0 "qec" 0 = Ok ["a.example"].
Proof.
  apply (find_urls_nonpositive_limit page_world 0 "qec" 0
           [NotADict; Dict None; Dict (Some "a.example"); Dict (Some "b.example");
            Dict (Some "c.example"); Dict (Some "d.example")] "a.example");
    [lia|reflexivity|reflexivity].
Defined.

(** ** [strip] *)

Lemma lstrip_points_suffix l : lstrip_points l `suffix_of` l.
Proof.
  induction l as [|c l IH]; simpl; [done|].
  destruct (isspace c); [by apply suffix_cons_r|done].
Qed.

Lemma rstrip_points_prefix l : rstrip_points l `prefix_of` l.
Proof.
  induction l as [|c l IH]; simpl; [done|].
  destruct (rstrip_points l) as [|x r].
  - destruct (isspace c); [apply prefix_nil|]. by apply prefix_cons, prefix_nil.
  - by apply prefix_cons.
Qed.

(** A list that [lstrip_points] leaves alone is empty or starts with a code
    point that is no whitespace. *)
Lemma lstrip_points_fixed l :
  lstrip_points l = l ↔ match l with [] => True | c :: _ => isspace c = false end.
Proof.
  destruct l as [|c l]; simpl; [done|]. destruct (isspace c) eqn:Hc; [|done].
  split; [|done]. intros Heq. pose proof (suffix_length _ _ (lstrip_points_suffix l)) as Hlen.
  rewrite Heq in Hlen. simpl in Hlen. lia.
Qed.

Lemma lstrip_points_idemp l : lstrip_points (lstrip_points l) = lstrip_points l.
Proof.
  induction l as [|c l IH]; simpl; [done|].
  destruct (isspace c) eqn:Hc; [done|]. simpl. by rewrite Hc.
Qed.

Lemma rstrip_points_idemp l : rstrip_points (rstrip_points l) = rstrip_points l.
Proof.
  induction l as [|c l IH]; simpl; [done|].
  destruct (rstrip_points l) as [|x r] eqn:Hr.
  - destruct (isspace c) eqn:Hc; simpl; [done|]. by rewrite Hc.
  - simpl in *. by rewrite IH.
Qed.

Lemma lstrip_rstrip_points l :
  lstrip_points l = l → lstrip_points (rstrip_points l) = rstrip_points l.
Proof.
  rewrite !lstrip_points_fixed. destruct l as [|c l]; simpl; [done|]. intros Hc.
  destruct (rstrip_points l); [by rewrite Hc|done].
Qed.

(** The code points of a stripped text. *)
Lemma codepoints_strip s :
  codepoints (strip s) = rstrip_points (lstrip_points (codepoints s)).
Proof.
  unfold strip. apply segmented_codepoints.
  eapply segmented_prefix; [apply rstrip_points_prefix|].
  eapply segmented_suffix; [apply lstrip_points_suffix|]. apply codepoints_segmented.
Qed.

Lemma strip_idemp s : strip (strip s) = strip s.
Proof.
  unfold strip at 1. rewrite codepoints_strip.
  rewrite lstrip_rstrip_points by apply lstrip_points_idemp.
  by rewrite rstrip_points_idemp.
Qed.

Lemma strip_one_line s : one_line s → one_line (strip s).
Proof.
  intros Hs. unfold strip.
  destruct (lstrip_points_suffix (codepoints s)) as [k1 Hk1].
  destruct (rstrip_points_prefix (lstrip_points (codepoints s))) as [k2 Hk2].
  rewrite <- (of_codepoints_codepoints s), Hk1, Hk2, !of_codepoints_app in Hs.
  apply one_line_app in Hs as [_ Hs]. by apply one_line_app in Hs as [Hs _].
Qed.

(** A stripped text neither begins nor ends with whitespace. *)
Lemma rstrip_points_last l :
  match last (rstrip_points l) with
  | Some cp => isspace cp = false
  | None => True
  end.
Proof.
  induction l as [|c l IH]; simpl; [done|].
  destruct (rstrip_points l) as [|x r] eqn:Hr; [by destruct (isspace c) eqn:Hc|exact IH].
Qed.

Lemma strip_trimmed s : trimmed (strip s).
Proof.
  unfold trimmed. rewrite codepoints_strip. set (l := lstrip_points (codepoints s)).
  assert (lstrip_points (rstrip_points l) = rstrip_points l) as Hfixed.
  { apply lstrip_rstrip_points, lstrip_points_idemp. }
  apply lstrip_points_fixed in Hfixed. pose proof (rstrip_points_last l) as Hlast.
  destruct (rstrip_points l) as [|cp r]; [done|]. simpl head.
  by destruct (last (cp :: r)).
Qed.

(** ** utils/llm.py *)

(** The queries read from a model answer: each one is a non-empty single
    line without surrounding whitespace. *)
Lemma parse_queries_clean txt :
  Forall (fun q => q ≠ "" ∧ strip q = q ∧ trimmed q ∧ one_line q) (parse_queries txt).
Proof.
  unfold parse_queries. apply Forall_forall.
  intros q (line & Hq & Hline)%list_elem_of_In%List.in_map_iff.
  apply List.filter_In in Hline as [Hin Hne]. rewrite <- Hq. clear q Hq.
  split; [by destruct (strip line)|]. split; [apply strip_idemp|].
  split; [apply strip_trimmed|]. apply strip_one_line.
  pose proof (split_char_lines_one_line txt) as Hlines.
  eapply Forall_forall in Hlines; [exact Hlines|by apply list_elem_of_In].
Qed.

(** X6. Whatever the model answers and whatever [breadth] is, every query the
    Query Expander returns is a non-empty single line without leading or
    trailing whitespace, whitespace being what [str.strip] removes: the
    ASCII blanks and the Unicode spaces alike. *)
Theorem generated_queries_clean w t context known breadth queries :
  generate_search_queries w t context known breadth = Ok queries →
  Forall (fun q => q ≠ "" ∧ strip q = q ∧ trimmed q ∧ one_line q) queries.
Proof.
  unfold generate_search_queries.
  destruct (_call_gemini_api w t _ _) as [txt|e]; simpl; [|discriminate].
  intros [= <-]. pose proof (parse_queries_clean txt) as Hclean.
  rewrite Forall_forall in *. intros q Hq. apply Hclean.
  unfold slice_to in Hq. destruct (breadth <? 0); by eapply subseteq_take.
Qed.

Lemma generated_queries_clean_witness :
  Forall (fun q => q ≠ "" ∧ strip q = q ∧ trimmed q ∧ one_line q)
    ["alpha"; "beta"; "gamma"].
Proof.
  apply (generated_queries_clean unicode_lines_world 0 "topic" [] 3). reflexivity.
Defined.

(** The findings shown to the query model: none for an empty list, else the
    last five (all of them when there are at most five), in order. *)
Lemma last_five_spec (known : list json) :
  match last_five known with
  | None => known = []
  | Some shown =>
      known ≠ [] ∧ shown `suffix_of` known ∧ length shown = (length known `min` 5)%nat
  end.
Proof.
  destruct known as [|k known]; [done|]. unfold last_five, slice_from.
  change (-5 <? 0) with true. cbv iota.
  split; [done|]. split; [apply suffix_drop|]. rewrite length_drop. lia.
Qed.

(** X7. An answer without parts, as when the model blocks it, gives no query
    at all, whatever [breadth] is; when such an answer has no candidate
    either, logging it raises [IndexError]. *)
Theorem blocked_answer_gives_no_queries w t context known breadth resp :
  generate_content_async w t model_search (SearchPrompt breadth context (last_five known))
  = Ok resp →
  parts resp = [] →
  generate_search_queries w t context known breadth
  = match candidates resp with O => Raised IndexError | S _ => Ok [] end.
Proof.
  intros Hresp Hparts. unfold generate_search_queries, _call_gemini_api.
  rewrite Hresp, Hparts. destruct (candidates resp); [done|].
  change (Ok (slice_to (parse_queries "") breadth) = Ok (@nil string)).
  assert (parse_queries "" = []) as -> by reflexivity.
  unfold slice_to. destruct (breadth <? 0); by rewrite take_nil.
Qed.

Lemma blocked_answer_gives_no_queries_witness :
  generate_search_queries blocked_world 0 "topic" [] 3 = Ok [].
Proof.
  apply (blocked_answer_gives_no_queries blocked_world 0 "topic" [] 3
           {| parts := []; candidates := 1 |}); reflexivity.
Defined.

(** X8. Findings older than the last five have no influence on the generated
    queries: the Query Expander gives the same result with and without them. *)
Theorem old_findings_not_shown w t context (old recent : list json) breadth :
  length recent = 5%nat →
  generate_search_queries w t context (old ++ recent) breadth
  = generate_search_queries w t context recent breadth.
Proof.
  intros Hlen. unfold generate_search_queries.
  assert (last_five (old ++ recent) = last_five recent) as ->; [|done].
  unfold last_five, slice_from. change (-5 <? 0) with true. cbv iota.
  destruct recent as [|r recent]; [done|].
  destruct (old ++ r :: recent) as [|x l] eqn:Happ; [by destruct old|].
  rewrite <- Happ. f_equal. rewrite length_app, Hlen.
  replace (Z.to_nat (Z.of_nat (length old + 5) + -5)) with (length old) by lia.
  rewrite drop_app_length. by rewrite drop_0.
Qed.

Lemma old_findings_not_shown_witness :
  generate_search_queries five_lines_world 0 "topic"
    ([JStr "f0"; JStr "f1"] ++ [JStr "f2"; JStr "f3"; JStr "f4"; JStr "f5"; JStr "f6"]) 3
  = generate_search_queries five_lines_world 0 "topic"
      [JStr "f2"; JStr "f3"; JStr "f4"; JStr "f5"; JStr "f6"] 3.
Proof.
  apply (old_findings_not_shown five_lines_world 0 "topic" [JStr "f0"; JStr "f1"]
           [JStr "f2"; JStr "f3"; JStr "f4"; JStr "f5"; JStr "f6"] 3).
  reflexivity.
Defined.

Lemma string_prefix_app a b : String.prefix a (a +:+ b) = true.
Proof. induction a as [|c a IH]; simpl; [by destruct b|]. by destruct (ascii_dec c c). Qed.

Lemma string_prefix_refl s : String.prefix s s = true.
Proof. induction s as [|c s IH]; simpl; [done|]. by destruct (ascii_dec c c). Qed.

Lemma codepoints_str_prefix n s :
  codepoints (str_prefix n s) = take (Z.to_nat n) (codepoints s).
Proof.
  unfold str_prefix. apply segmented_codepoints.
  eapply segmented_prefix; [apply prefix_take|apply codepoints_segmented].
Qed.

Lemma str_prefix_prefix n s : String.prefix (str_prefix n s) s = true.
Proof.
  unfold str_prefix. rewrite <- (of_codepoints_codepoints s) at 2.
  rewrite <- (take_drop (Z.to_nat n) (codepoints s)) at 2.
  rewrite of_codepoints_app. apply string_prefix_app.
Qed.

Lemma len_str_prefix n s : 0 ≤ n → len (str_prefix n s) = Z.min (len s) n.
Proof.
  intros Hn. unfold len. rewrite codepoints_str_prefix, length_take. lia.
Qed.

(** X9. The Insight Synthesizer: the text sent to the model is the beginning of
    the text to analyse, cut at 30000 characters, that is its first 30000
    code points, whatever the number of bytes they take; the call raises
    only the exception of the model call; and findings or directions come
    back only from an answer that parses to an object whose [learnings] and
    [directions] are both lists, every other answer giving two empty lists. *)
Theorem summarize_contract w t context known txt :
  ∃ sent,
    String.prefix sent txt = true ∧
    codepoints sent = take (Z.to_nat max_input_chars) (codepoints txt) ∧
    len sent = Z.min (len txt) max_input_chars ∧
    match _call_gemini_api w t (AnalyzePrompt context (all_known known) sent) model_analyze with
    | Raised e => summarize_and_find_directions w t context known txt = Raised e
    | Ok answer =>
        ∃ a,
          summarize_and_find_directions w t context known txt = Ok a ∧
          (a = no_analysis ∨
           ∃ items,
             json_loads w answer = Ok (JObj items) ∧
             dict_get "learnings" items = Some (JArr (learnings a)) ∧
             dict_get "directions" items = Some (JArr (directions a)))
    end.
Proof.
  unfold summarize_and_find_directions.
  set (sent := if max_input_chars <? len txt then str_prefix max_input_chars txt else txt).
  exists sent. split; [|split; [|split]].
  - unfold sent. destruct (max_input_chars <? len txt);
      [apply str_prefix_prefix|apply string_prefix_refl].
  - unfold sent. destruct (Z.ltb_spec max_input_chars (len txt)) as [H|H];
      [apply codepoints_str_prefix|]. unfold len in H. by rewrite take_ge by lia.
  - unfold sent. destruct (Z.ltb_spec max_input_chars (len txt)) as [H|H];
      [rewrite len_str_prefix by done|]; lia.
  - destruct (_call_gemini_api w t _ _) as [answer|e]; simpl; [|done].
    eexists. split; [reflexivity|]. unfold parse_analysis.
    destruct (json_loads w answer) as [[| | | | |items]|[]] eqn:Hjson; try by left.
    destruct (dict_get "learnings" items) as [[| | | |ls|]|] eqn:Hls; try by left.
    destruct (dict_get "directions" items) as [[| | | |ds|]|] eqn:Hds; try by left.
    right. by exists items.
Qed.

(** ** research_logic.py *)

Lemma searches_no_context sev c :
  searches sev → Forall (fun ev => ∀ c', event_context ev = Some c' → c' = c) sev.
Proof.
  intros Hsev. eapply Forall_impl; [exact Hsev|]. by intros ev (q & n & urls & ->).
Qed.

Lemma extractions_no_context urls xev c :
  extractions urls xev → Forall (fun ev => ∀ c', event_context ev = Some c' → c' = c) xev.
Proof.
  induction 1 as [|u ev urls xev (r & ->) _ IH]; constructor; done.
Qed.

Lemma iteration_context w b s h r h' evs :
  iteration_run w b s h r h' evs →
  Forall (fun ev => ∀ c, event_context ev = Some c → c = current_query_context s) evs ∧
  (∀ s', r = Ok s' → current_query_context s' = current_query_context s).
Proof.
  destruct 1;
    repeat match goal with
    | H : searches _ |- _ => apply (searches_no_context _ (current_query_context s)) in H
    | H : extractions _ _ |- _ =>
        apply (extractions_no_context _ _ (current_query_context s)) in H
    end;
    (split; [|try done; by intros ? [= <-]]);
    repeat first [assumption | apply Forall_app_2 | apply Forall_cons_2; [by intros ? [= <-]|]
                 | apply Forall_nil_2].
Qed.

Lemma loop_context w b n s h r h' evs :
  loop_run w b n s h r h' evs →
  Forall (fun ev => ∀ c, event_context ev = Some c → c = current_query_context s) evs ∧
  (∀ s', r = Ok s' → current_query_context s' = current_query_context s).
Proof.
  induction 1 as [s h|n s h e h' evs Hit|n s h s1 h1 evs1 r h2 evs2 Hit Hloop IH].
  - split; [constructor|by intros ? [= <-]].
  - by apply iteration_context in Hit as [Hevs _].
  - apply iteration_context in Hit as [Hevs1 Hctx1]. destruct IH as [Hevs2 Hctx2].
    rewrite (Hctx1 s1 eq_refl) in *. split; [by apply Forall_app_2|done].
Qed.

(** X10. The search focus never moves: every call of the Query Expander and of
    the Insight Synthesizer during a run is given the initial query as its
    context, whatever directions earlier iterations proposed, and the Report
    Composer is given the initial query. *)
Theorem context_stays_initial_query w q d b existing st ev c :
  ev ∈ events_of (perform_deep_research w q d b existing) st →
  event_context ev = Some c →
  c = q.
Proof.
  destruct (perform_deep_research w q d b existing st) as [r st'] eqn:Hrun.
  pose proof Hrun as Hrun'.
  apply perform_deep_research_sound in Hrun'
    as (l & h0 & rs & evs & _ & _ & _ & _ & Hloop & Hend).
  apply loop_context in Hloop as [Hevs _]. simpl in Hevs.
  assert (∃ tail, events_of (perform_deep_research w q d b existing) st = evs ++ tail ∧
                  Forall (fun ev => ∀ c, event_context ev = Some c → c = q) tail)
    as (tail & -> & Htail).
  { destruct rs as [s|e].
    - destruct Hend as (rr & _ & Htr & _). eexists. split.
      + apply events_of_app. rewrite Hrun. exact Htr.
      + repeat constructor. by intros ? [= <-].
    - destruct Hend as [_ Htr]. exists []. rewrite app_nil_r. split; [|constructor].
      apply events_of_app. by rewrite Hrun. }
  intros Hin Hc. pose proof (Forall_app_2 _ _ _ Hevs Htail) as Hall.
  eapply Forall_forall in Hall; [|exact Hin]. by apply Hall.
Qed.

Lemma context_stays_initial_query_witness :
  "quantum error correction" = "quantum error correction".
Proof.
  apply (context_stays_initial_query scenario_world "quantum error correction" 2 2 None
           empty_state
           (SummarizeAndFindDirections "quantum error correction" []
              ("Surface codes" +:+ separator +:+ "Surface codes")
              (Ok {| learnings := [JStr "codes protect qubits"];
                     directions := [JStr "decoders"] |}))).
  - vm_compute. do 5 right. left.
  - reflexivity.
Defined.

Lemma learned_app evs1 evs2 : learned (evs1 ++ evs2) = learned evs1 ++ learned evs2.
Proof. unfold learned. by rewrite syntheses_app, omap_app, join_app. Qed.

Lemma learned_silent evs : syntheses evs = [] → learned evs = [].
Proof. unfold learned. by intros ->. Qed.

Lemma iteration_learned w b s h r h' evs :
  iteration_run w b s h r h' evs →
  contents h' (all_learnings s) = contents h (all_learnings s) ++ learned evs.
Proof.
  destruct 1; rewrite ?learned_app;
    repeat match goal with
    | H : searches _ |- _ => apply searches_silent in H as (_ & _ & ?%learned_silent & _)
    | H : extractions _ _ |- _ =>
        apply extractions_silent in H as (_ & _ & ?%learned_silent & _)
    end;
    repeat match goal with H : learned _ = [] |- _ => rewrite H; clear H end;
    try (by rewrite ?app_nil_r).
  unfold contents at 1. rewrite lookup_insert_eq. simpl.
  unfold learned. simpl. by rewrite app_nil_r.
Qed.

Lemma loop_learned w b n s h r h' evs :
  loop_run w b n s h r h' evs →
  contents h' (all_learnings s) = contents h (all_learnings s) ++ learned evs.
Proof.
  induction 1 as [s h|n s h e h' evs Hit|n s h s1 h1 evs1 r h2 evs2 Hit Hloop IH].
  - by rewrite app_nil_r.
  - by apply iteration_learned in Hit.
  - pose proof (iteration_store _ _ _ _ _ _ _ Hit) as (_ & _ & Hall).
    apply iteration_learned in Hit. rewrite (Hall s1 eq_refl) in IH.
    by rewrite IH, Hit, learned_app, app_assoc.
Qed.

(** X11. What a run returns as findings: the existing findings followed by the
    findings of every synthesis of the run, in the order of the calls;
    nothing is dropped, reordered or deduplicated. *)
Theorem findings_are_existing_plus_learned w q d b existing st o :
  (perform_deep_research w q d b existing st).1 = Ok o →
  contents (heap (perform_deep_research w q d b existing st).2) (findings o)
  = existing_contents (heap st) existing
    ++ learned (events_of (perform_deep_research w q d b existing) st).
Proof.
  destruct (perform_deep_research w q d b existing st) as [r st'] eqn:Hrun.
  pose proof Hrun as Hrun'.
  apply perform_deep_research_sound in Hrun'
    as (l & h0 & rs & evs & _ & _ & Hc & _ & Hloop & Hend).
  simpl. intros ->. destruct rs as [s|e]; [|by destruct Hend].
  destruct Hend as (rr & _ & Htr & Hr).
  erewrite events_of_app; [|by rewrite Hrun].
  pose proof (loop_store _ _ _ _ _ _ _ _ Hloop) as (_ & _ & Hall).
  apply loop_learned in Hloop. simpl in *.
  destruct rr as [report|e]; [|discriminate]. injection Hr as ->. simpl.
  rewrite (Hall s eq_refl), Hloop, Hc, learned_app.
  by rewrite (learned_silent [_]), app_nil_r.
Qed.

Lemma findings_are_existing_plus_learned_witness :
  contents (heap (perform_deep_research scenario_world "quantum error correction" 2 2
                    (Some 0%nat) caller_state).2) 1%nat
  = [JStr "known fact"] ++ [JStr "codes protect qubits"].
Proof.
  apply (findings_are_existing_plus_learned scenario_world "quantum error correction" 2 2
           (Some 0%nat) caller_state
           {| final_report := "report";
              sources := ["siteA.example/qec"; "siteB.example/qec"];
              findings := 1%nat;
              next_directions := [JStr "decoders"] |}).
  by vm_compute.
Defined.

(** X12. The report of a run that returns is what the Report Composer made of the
    returned findings for the initial query; that call is the last call of
    the run and the only one to the Report Composer. A run that ends without
    any finding returns the fixed no-information document. *)
Theorem report_is_composed_from_findings w q d b existing st o :
  (perform_deep_research w q d b existing st).1 = Ok o →
  last (events_of (perform_deep_research w q d b existing) st)
  = Some (GenerateFinalReport q
            (contents (heap (perform_deep_research w q d b existing st).2) (findings o))
            (Ok (final_report o))) ∧
  report_calls (events_of (perform_deep_research w q d b existing) st) = 1%nat ∧
  (contents (heap (perform_deep_research w q d b existing st).2) (findings o) = [] →
   final_report o = no_information_report q).
Proof.
  destruct (perform_deep_research w q d b existing st) as [r st'] eqn:Hrun.
  pose proof Hrun as Hrun'.
  apply perform_deep_research_sound in Hrun'
    as (l & h0 & rs & evs & _ & _ & _ & _ & Hloop & Hend).
  simpl. intros ->. destruct rs as [s|e]; [|by destruct Hend].
  destruct Hend as (rr & Hrr & Htr & Hr).
  erewrite events_of_app; [|by rewrite Hrun].
  apply loop_end in Hloop as [Hrep _].
  destruct rr as [report|e]; [|discriminate]. injection Hr as ->. simpl in *.
  split; [by rewrite last_snoc|]. split; [by rewrite report_calls_app, Hrep|].
  intros Hnone. rewrite Hnone in Hrr. by injection Hrr as ->.
Qed.

Lemma report_is_composed_from_findings_witness :
  final_report
    {| final_report := no_information_report "quantum error correction";
       sources := []; findings := 1%nat; next_directions := [] |}
  = no_information_report "quantum error correction".
Proof.
  apply (report_is_composed_from_findings starving_world "quantum error correction" 3 2
           None empty_state); by vm_compute.
Defined.

(** *** Fan-out and sources *)

Lemma search_calls_app evs1 evs2 :
  search_calls (evs1 ++ evs2) = (search_calls evs1 + search_calls evs2)%nat.
Proof. unfold search_calls. by rewrite List.filter_app, length_app. Qed.

Lemma successes_app evs1 evs2 : successes (evs1 ++ evs2) = successes evs1 ++ successes evs2.
Proof. apply omap_app. Qed.

Lemma gather_searches_detail w qs st :
  ∃ results sev,
    gather (map (search_task w) qs) st
    = (Ok results, {| heap := heap st; trace := trace st ++ sev |}) ∧
    search_calls sev = length qs ∧ extracted_urls sev = [] ∧ successes sev = [] ∧
    Forall well_scraped sev ∧
    (length (concat results) ≤ 2 * length qs)%nat.
Proof.
  revert st. induction qs as [|q qs IH]; intros st.
  - exists [], []. rewrite app_nil_r. split; [by destruct st|]. repeat split; done.
  - simpl. rewrite bind_run. unfold search_task at 1, await.
    rewrite find_urls_take.
    match goal with |- context [Ok ?urls] => set (found := urls) end.
    destruct (IH {| heap := heap st; trace := trace st ++ [FindUrls q 2 (Ok found)] |})
      as (results & sev & Hrest & Hcalls & Hx & Hs & Hw & Hlen).
    rewrite bind_run, Hrest. simpl. rewrite <- app_assoc.
    exists (found :: results), (FindUrls q 2 (Ok found) :: sev).
    split; [reflexivity|]. split; [unfold search_calls in *; simpl; by rewrite Hcalls|].
    split; [done|]. split; [done|]. split; [by constructor|].
    simpl. rewrite length_app.
    assert (length found ≤ 2)%nat; [|lia].
    unfold found. destruct (ddgs_text w _ q _); [|simpl; lia].
    rewrite length_take. lia.
Qed.

Lemma gather_extractions_detail w urls st :
  ∃ results xev,
    gather (map (fun u => settle (scrape_task w u)) urls) st
    = (Ok results, {| heap := heap st; trace := trace st ++ xev |}) ∧
    search_calls xev = 0%nat ∧ extracted_urls xev = urls ∧
    successes xev = map url (omap successful results) ∧
    Forall well_scraped xev.
Proof.
  revert st. induction urls as [|u urls IH]; intros st.
  - exists [], []. rewrite app_nil_r. split; [by destruct st|]. repeat split; done.
  - destruct (scrape_content_returns w (length (trace st)) u) as (r & Hu & Hdoc).
    simpl. rewrite bind_run. unfold settle at 1, scrape_task at 1, await. rewrite Hu.
    destruct (IH {| heap := heap st; trace := trace st ++ [ScrapeContent u (Ok r)] |})
      as (results & xev & Hrest & Hcalls & Hx & Hs & Hw).
    rewrite bind_run, Hrest. simpl. rewrite <- app_assoc.
    exists (Ok r :: results), (ScrapeContent u (Ok r) :: xev).
    split; [reflexivity|]. split; [done|]. split; [simpl; by rewrite Hx|].
    split.
    + change (ScrapeContent u (Ok r) :: xev) with ([ScrapeContent u (Ok r)] ++ xev).
      rewrite successes_app, Hs. unfold successes. simpl.
      destruct r as [doc|]; [|done]. simpl. by destruct (nonempty (text doc)).
    + constructor; [|done]. destruct r as [doc|]; [|done]. by apply Hdoc.
Qed.

Lemma new_urls_concat results v :
  new_urls results v = add_new_urls (concat results) ([], v).
Proof.
  unfold new_urls. generalize (@nil string, v).
  induction results as [|urls results IH]; intros acc; simpl; [done|].
  rewrite IH. unfold add_new_urls. by rewrite fold_left_app.
Qed.

Lemma new_urls_length results v :
  (length (new_urls results v).1 ≤ length (concat results))%nat.
Proof.
  rewrite new_urls_concat.
  destruct (add_new_urls_spec (concat results) [] v) as (new & -> & Hnd & _ & Hsub).
  - constructor.
  - intros u Hu. by apply not_elem_of_nil in Hu.
  - simpl in *. apply submseteq_length, NoDup_submseteq; done.
Qed.

Lemma generated_queries_length w t c known b qs :
  0 ≤ b → generate_search_queries w t c known b = Ok qs → (length qs ≤ Z.to_nat b)%nat.
Proof.
  intros Hb. unfold generate_search_queries.
  destruct (_call_gemini_api w t _ _) as [txt|e]; simpl; [|discriminate].
  intros [= <-]. unfold slice_to. destruct (Z.ltb_spec b 0); [lia|].
  rewrite length_take. lia.
Qed.

(** One iteration: its calls are bounded by [breadth], and the sources grow
    by the URLs of its usable documents. *)
Lemma iteration_detail w b s st r st' :
  iteration w b s st = (r, st') →
  ∃ evs,
    trace st' = trace st ++ evs ∧
    Forall well_scraped evs ∧
    (0 ≤ b → (search_calls evs ≤ Z.to_nat b)%nat ∧
             (length (extracted_urls evs) ≤ 2 * Z.to_nat b)%nat) ∧
    (∀ s', r = Ok s' → all_sources s' = all_sources s ++ successes evs).
Proof.
  unfold iteration. rewrite bind_read_list, bind_await. cbv zeta.
  destruct (generate_search_queries w (length (trace st)) _ _ b) as [qs|e] eqn:Hq.
  2:{ intros [= <- <-]. eexists. split; [reflexivity|]. simpl.
      split; [by repeat constructor|]. split; [|done].
      intros Hb. unfold search_calls. simpl. lia. }
  rewrite bind_run.
  match goal with |- context [gather _ ?st1] =>
    destruct (gather_searches_detail w qs st1)
      as (results & sev & -> & Hcalls & Hsx & Hss & Hsw & Hfound) end.
  simpl heap. simpl trace.
  pose proof (new_urls_length results (visited_urls s)) as Hnew.
  destruct (new_urls results (visited_urls s)) as [urls v'] eqn:Hurls. simpl in Hnew.
  assert (0 ≤ b → (length qs ≤ Z.to_nat b)%nat) as Hqs.
  { intros Hb. by eapply generated_queries_length. }
  set (expand := GenerateSearchQueries _ _ b (Ok qs)).
  assert (search_calls [expand] = 0%nat ∧ extracted_urls [expand] = [] ∧
          successes [expand] = []) as (He1 & He2 & He3) by done.
  destruct urls as [|u urls].
  { rewrite ret_run. intros [= <- <-]. simpl. exists ([expand] ++ sev).
    rewrite <- app_assoc. split; [done|]. split; [by constructor|].
    rewrite search_calls_app, extracted_urls_app, successes_app, Hcalls, Hsx, Hss,
      He1, He2, He3.
    split; [|intros s' [= <-]; simpl; by rewrite app_nil_r].
    intros Hb. specialize (Hqs Hb). simpl. lia. }
  rewrite bind_run.
  match goal with |- context [gather _ ?st1] =>
    destruct (gather_extractions_detail w (u :: urls) st1)
      as (scraped & xev & -> & Hxcalls & Hxx & Hxs & Hxw) end.
  simpl heap. simpl trace.
  assert (∀ tail, search_calls tail = 0%nat → extracted_urls tail = [] → 0 ≤ b →
          (search_calls ([expand] ++ sev ++ xev ++ tail) ≤ Z.to_nat b)%nat ∧
          (length (extracted_urls ([expand] ++ sev ++ xev ++ tail)) ≤ 2 * Z.to_nat b)%nat)
    as Hfan.
  { intros tail Ht1 Ht2 Hb. specialize (Hqs Hb).
    rewrite !search_calls_app, !extracted_urls_app, Hcalls, Hsx, Hxcalls, Hxx, He1, He2,
      Ht1, Ht2.
    simpl in *. rewrite app_nil_r. simpl. lia. }
  assert (∀ tail, successes tail = [] →
          successes ([expand] ++ sev ++ xev ++ tail) = map url (omap successful scraped))
    as Hsucc.
  { intros tail Ht. rewrite !successes_app, Hss, Hxs, He3, Ht. simpl.
    by rewrite app_nil_r. }
  destruct (omap successful scraped) as [|doc docs] eqn:Hdata.
  { rewrite ret_run. intros [= <- <-]. exists ([expand] ++ sev ++ xev ++ []).
    simpl trace. rewrite <- !app_assoc, app_nil_r. split; [done|].
    split; [constructor; [done|by apply Forall_app_2]|].
    rewrite <- (app_nil_r xev). split; [by apply Hfan|].
    intros s' [= <-]. rewrite Hsucc by done. simpl. by rewrite app_nil_r. }
  rewrite bind_read_list, bind_await. cbv zeta.
  simpl heap. simpl trace. simpl all_learnings. simpl current_query_context.
  match goal with |- context [summarize_and_find_directions w ?t ?c ?k ?txt] =>
    destruct (summarize_and_find_directions w t c k txt) as [a|e] eqn:Ha;
    set (synth := SummarizeAndFindDirections c k txt) end.
  2:{ intros [= <- <-]. exists ([expand] ++ sev ++ xev ++ [synth (Raised e)]).
      simpl trace. rewrite <- !app_assoc. split; [done|].
      split; [constructor; [done|]; repeat apply Forall_app_2; by repeat constructor|].
      split; [by apply Hfan|done]. }
  rewrite bind_extend, ret_run. intros [= <- <-].
  exists ([expand] ++ sev ++ xev ++ [synth (Ok a)]).
  simpl trace. rewrite <- !app_assoc. split; [done|].
  split; [constructor; [done|]; repeat apply Forall_app_2; by repeat constructor|].
  split; [by apply Hfan|].
  intros s' [= <-]. by rewrite Hsucc.
Qed.

Lemma research_loop_detail w b n s st r st' :
  research_loop w b n s st = (r, st') →
  ∃ evs,
    trace st' = trace st ++ evs ∧
    Forall well_scraped evs ∧
    (0 ≤ b → (search_calls evs ≤ Z.to_nat b * n)%nat ∧
             (length (extracted_urls evs) ≤ 2 * Z.to_nat b * n)%nat) ∧
    (∀ s', r = Ok s' → all_sources s' = all_sources s ++ successes evs).
Proof.
  revert s st. induction n as [|n IH]; intros s st.
  - intros [= <- <-]. exists []. rewrite app_nil_r. split; [done|]. split; [constructor|].
    split; [intros; unfold search_calls; simpl; lia|]. intros s' [= <-]. by rewrite app_nil_r.
  - simpl. rewrite bind_run.
    destruct (iteration w b s st) as [[s1|e] st1] eqn:Hit;
      apply iteration_detail in Hit as (evs1 & Htr1 & Hw1 & Hfan1 & Hsrc1).
    + intros (evs2 & Htr2 & Hw2 & Hfan2 & Hsrc2)%IH.
      exists (evs1 ++ evs2). rewrite Htr2, Htr1, <- app_assoc. split; [done|].
      split; [by apply Forall_app_2|]. split.
      * intros Hb. destruct (Hfan1 Hb), (Hfan2 Hb).
        rewrite search_calls_app, extracted_urls_app, length_app. lia.
      * intros s' Hs'. rewrite (Hsrc2 s' Hs'), (Hsrc1 s1 eq_refl), successes_app.
        by rewrite app_assoc.
    + intros [= <- <-]. exists evs1. split; [done|]. split; [done|].
      split; [|done]. intros Hb. destruct (Hfan1 Hb). lia.
Qed.

(** The events of the loop of a run, with the session it ends in. *)
Lemma run_loop_detail w q d b existing st :
  ∃ evs tail rs,
    events_of (perform_deep_research w q d b existing) st = evs ++ tail ∧
    search_calls tail = 0%nat ∧ extracted_urls tail = [] ∧ successes tail = [] ∧
    Forall well_scraped (evs ++ tail) ∧
    (0 ≤ b → (search_calls evs ≤ Z.to_nat b * range_len d)%nat ∧
             (length (extracted_urls evs) ≤ 2 * Z.to_nat b * range_len d)%nat) ∧
    (∀ o, (perform_deep_research w q d b existing st).1 = Ok o →
       ∃ s, rs = Ok s ∧ all_sources s = successes evs ∧
            sources o = elements (list_to_set (all_sources s) : gset string)).
Proof.
  destruct (perform_deep_research w q d b existing st) as [r st'] eqn:Hrun.
  pose proof Hrun as Hrun'.
  apply perform_deep_research_sound in Hrun'
    as (l & h0 & rs & evs & _ & _ & _ & Hsession & _ & Hend).
  unfold research_session in Hsession. rewrite bind_run in Hsession.
  destruct (open_session_spec q existing st) as (l' & h0' & Hopen & _).
  rewrite Hopen in Hsession.
  apply research_loop_detail in Hsession as (evs' & Htr & Hw & Hfan & Hsrc).
  simpl in Htr. apply app_inv_head in Htr as <-.
  destruct rs as [s|e].
  - destruct Hend as (rr & _ & Htr & Hr).
    exists evs, [GenerateFinalReport q (contents (heap st') (all_learnings s)) rr], (Ok s).
    split; [apply events_of_app; by rewrite Hrun|]. repeat split; try done.
    + apply Forall_app_2; [done|]. by repeat constructor.
    + by apply Hfan.
    + by apply Hfan.
    + simpl. intros o ->. exists s. split; [done|]. split; [by rewrite (Hsrc s eq_refl)|].
      destruct rr as [report|e]; [|discriminate]. by injection Hr as ->.
  - destruct Hend as [-> Htr]. exists evs, [], (Raised e).
    split; [rewrite app_nil_r; apply events_of_app; by rewrite Hrun|].
    rewrite app_nil_r. repeat split; try done; by apply Hfan.
Qed.

(** X13. Bounded fan-out: with a non-negative [breadth], a run makes at most
    [breadth] searches per iteration and, each search being capped at two
    results, at most [2 * breadth] extractions per iteration. *)
Theorem fan_out_bound w q d b existing st :
  0 ≤ b →
  Z.of_nat (search_calls (events_of (perform_deep_research w q d b existing) st))
    ≤ b * Z.max 0 d ∧
  Z.of_nat (length (extracted_urls (events_of (perform_deep_research w q d b existing) st)))
    ≤ 2 * b * Z.max 0 d.
Proof.
  intros Hb.
  destruct (run_loop_detail w q d b existing st)
    as (evs & tail & rs & -> & Ht1 & Ht2 & _ & _ & Hfan & _).
  destruct (Hfan Hb) as [Hf1 Hf2]. unfold range_len in *.
  rewrite search_calls_app, extracted_urls_app, Ht1, Ht2, app_nil_r. nia.
Qed.

Lemma fan_out_bound_witness :
  Z.of_nat (search_calls (events_of (perform_deep_research scenario_world
                                       "quantum error correction" 2 2 None) empty_state))
    ≤ 2 * Z.max 0 2 ∧
  Z.of_nat (length (extracted_urls (events_of (perform_deep_research scenario_world
                                       "quantum error correction" 2 2 None) empty_state)))
    ≤ 2 * 2 * Z.max 0 2.
Proof.
  apply (fan_out_bound scenario_world "quantum error correction" 2 2 None empty_state).
  lia.
Defined.

(** X14. The sources of a run that returns are exactly the URLs whose extraction
    gave a document with text, each listed once. *)
Theorem sources_are_successful_extractions w q d b existing st o :
  (perform_deep_research w q d b existing st).1 = Ok o →
  NoDup (sources o) ∧
  ∀ u, u ∈ sources o ↔
       ∃ doc, ScrapeContent u (Ok (Some doc))
                ∈ events_of (perform_deep_research w q d b existing) st ∧
              url doc = u ∧ nonempty (text doc) = true.
Proof.
  intros Hok.
  destruct (run_loop_detail w q d b existing st)
    as (evs & tail & rs & Hevs & _ & _ & Ht & Hw & _ & Hsrc).
  destruct (Hsrc o Hok) as (s & _ & Hall & ->). rewrite Hevs.
  split; [apply NoDup_elements|]. intros u.
  rewrite elem_of_elements, elem_of_list_to_set, Hall.
  assert (successes (evs ++ tail) = successes evs) as <-.
  { by rewrite successes_app, Ht, app_nil_r. }
  unfold successes. rewrite list_elem_of_omap. split.
  - intros (ev & Hin & Hev). destruct ev as [| |u' [[doc|]|]| |]; try discriminate.
    simpl in Hev. destruct (nonempty (text doc)) eqn:Hne; [|discriminate].
    injection Hev as <-. eapply Forall_forall in Hw; [|exact Hin].
    destruct Hw as [<- _]. by exists doc.
  - intros (doc & Hin & <- & Hne). eexists. split; [exact Hin|]. simpl. by rewrite Hne.
Qed.

Lemma sources_are_successful_extractions_witness :
  NoDup ["siteA.example/qec"] ∧
  ∀ u, u ∈ ["siteA.example/qec"] ↔
       ∃ doc, ScrapeContent u (Ok (Some doc))
                ∈ events_of (perform_deep_research missing_page_world
                               "quantum error correction" 1 2 None) empty_state ∧
              url doc = u ∧ nonempty (text doc) = true.
Proof.
  apply (sources_are_successful_extractions missing_page_world
           "quantum error correction" 1 2 None empty_state
           {| final_report := "report"; sources := ["siteA.example/qec"];
              findings := 1%nat; next_directions := [JStr "decoders"] |}).
  by vm_compute.
Defined.

(** ** main.py and utils/file_utils.py *)

Lemma S_bind_run {A B} (m : Main.S A) (f : A → Main.S B) sv :
  (m ≫= f) sv =
  match m sv with
  | (Ok a, sv') => f a sv'
  | (Raised e, sv') => (Raised e, sv')
  end.
Proof. reflexivity. Qed.

Lemma result_names_stem (ts hash : string) :
  ∃ stem,
    ("results/result-" +:+ ts +:+ "-" +:+ hash +:+ ".md",
     "results/result-" +:+ ts +:+ "-" +:+ hash +:+ ".log")
    = (stem +:+ ".md", stem +:+ ".log") ∧
    String.prefix "results/result-" stem = true.
Proof.
  exists ("results/result-" +:+ ts +:+ "-" +:+ hash). split.
  - by rewrite !string_app_assoc.
  - apply string_prefix_app.
Qed.

Lemma generate_result_files_spec h sv r sv' :
  Main.generate_result_files h sv = (r, sv') →
  Main.research sv' = Main.research sv ∧ Main.files sv' = Main.files sv ∧
  Main.log_handlers sv' = Main.log_handlers sv ∧
  ∀ names, r = Ok names →
    (if Main.path_exists h (Main.clock sv) "results"
     then Main.dirs sv' = Main.dirs sv
     else Main.makedirs h (Main.clock sv) "results" = Ok tt ∧
          Main.dirs sv' = {["results"]} ∪ Main.dirs sv) ∧
    ∃ stem, names = (stem +:+ ".md", stem +:+ ".log") ∧
            String.prefix "results/result-" stem = true.
Proof.
  unfold Main.generate_result_files.
  destruct (Main.path_exists h (Main.clock sv) "results").
  - intros [= <- <-]. simpl. do 3 (split; [done|]).
    intros nm [= <-]. split; [done|]. apply result_names_stem.
  - destruct (Main.makedirs h (Main.clock sv) "results") as [[]|e]; simpl.
    + intros [= <- <-]. simpl. do 3 (split; [done|]).
      intros nm [= <-]. split; [done|]. apply result_names_stem.
    + intros [= <- <-]. by do 3 (split; [done|]).
Qed.

(** X15. The names of the result and log files: both lie under [results/],
    share their stem and differ in the extension only. The directory
    [results] is made only when no path of that name exists; when one
    exists, be it a directory or a file, nothing is made. *)
Theorem result_files_share_stem h sv names :
  (Main.generate_result_files h sv).1 = Ok names →
  (if Main.path_exists h (Main.clock sv) "results"
   then Main.dirs (Main.generate_result_files h sv).2 = Main.dirs sv
   else Main.makedirs h (Main.clock sv) "results" = Ok tt ∧
        Main.dirs (Main.generate_result_files h sv).2 = {["results"]} ∪ Main.dirs sv) ∧
  ∃ stem, names = (stem +:+ ".md", stem +:+ ".log") ∧
          String.prefix "results/result-" stem = true.
Proof.
  destruct (Main.generate_result_files h sv) as [r sv'] eqn:Hgen. simpl. intros ->.
  apply generate_result_files_spec in Hgen as (_ & _ & _ & Hnames). by apply Hnames.
Qed.

Lemma result_files_share_stem_witness :
  (Main.makedirs (working_host (text_response "final text") (Ok tt))
     (Main.clock fresh_server) "results" = Ok tt ∧
   Main.dirs (Main.generate_result_files
                (working_host (text_response "final text") (Ok tt)) fresh_server).2
   = {["results"]} ∪ Main.dirs fresh_server) ∧
  ∃ stem, ("results/result-20250101-120000-01234567.md",
           "results/result-20250101-120000-01234567.log")
          = (stem +:+ ".md", stem +:+ ".log") ∧
          String.prefix "results/result-" stem = true.
Proof.
  apply (result_files_share_stem (working_host (text_response "final text") (Ok tt))
           fresh_server).
  reflexivity.
Defined.

Lemma final_report_text h t q srcs concl dirs :
  ∃ txt, Main.generate_final_report h t q srcs concl dirs = Ok txt ∧ nonempty txt = true.
Proof.
  unfold Main.generate_final_report, Main.generate_final_report_try.
  destruct (Main.pro_generate_content_async h t _) as [resp|e]; simpl; [|by eexists].
  destruct (Main.text_of resp) as [txt|e]; simpl; [|by eexists].
  destruct (nonempty txt) eqn:Hne; simpl; by eexists.
Qed.

(** X16. [generate_final_report] of [main.py] never raises and never returns the
    empty string: it returns the text of the model's answer when that text is
    not empty, and in every other case (the call raises, the answer has no
    part, its text is empty) a message that names the exception. *)
Theorem final_report_never_empty h t q srcs concl dirs :
  ∃ txt,
    Main.generate_final_report h t q srcs concl dirs = Ok txt ∧ txt ≠ "" ∧
    match Main.pro_generate_content_async h t
            {| Main.prompt_query := q; Main.prompt_sources := srcs;
               Main.prompt_conclusions := concl; Main.prompt_directions := dirs |} with
    | Ok resp =>
        if match parts resp with [] => false | _ => nonempty (response_text resp) end
        then txt = response_text resp
        else ∃ e, txt = "Произошла ошибка при генерации отчета: " +:+ Main.exn_str h e
    | Raised e => txt = "Произошла ошибка при генерации отчета: " +:+ Main.exn_str h e
    end.
Proof.
  destruct (final_report_text h t q srcs concl dirs) as (txt & Htxt & Hne).
  exists txt. split; [exact Htxt|]. split; [by destruct txt|].
  revert Htxt. unfold Main.generate_final_report, Main.generate_final_report_try.
  destruct (Main.pro_generate_content_async h t _) as [resp|e]; simpl;
    [|by intros [= <-]].
  unfold Main.text_of. destruct (parts resp) as [|p ps]; simpl.
  - intros [= <-]. by eexists.
  - destruct (nonempty (response_text resp)); simpl; intros [= <-]; [done|by eexists].
Qed.

Lemma setup_file_logging_spec h f sv r sv' :
  Main.setup_file_logging h f sv = (r, sv') →
  Main.research sv' = Main.research sv ∧ Main.files sv' = Main.files sv ∧
  match r with
  | Ok _ => Main.log_handlers sv' = Main.log_handlers sv ++ [f]
  | Raised _ => Main.log_handlers sv' = Main.log_handlers sv
  end.
Proof.
  unfold Main.setup_file_logging.
  destruct (Main.open_log h (Main.clock sv) f) as [[]|e]; by intros [= <- <-].
Qed.

(** The guarded block of [run_research], case by case. *)
Lemma run_research_try_spec w h req rf sv r sv' :
  Main.run_research_try w h req rf sv = (r, sv') →
  Main.research sv'
  = (perform_deep_research w (Main.query req) (Main.depth req) (Main.breadth req)
       (Main.existing_learnings req) (Main.research sv)).2 ∧
  Main.log_handlers sv' = Main.log_handlers sv ∧
  match r with
  | Ok resp =>
      resp = {| Main.result_file := rf; Main.error := None |} ∧
      is_ok (perform_deep_research w (Main.query req) (Main.depth req) (Main.breadth req)
               (Main.existing_learnings req) (Main.research sv)).1 = true ∧
      ∃ txt, txt ≠ "" ∧ Main.files sv' = <[rf := Main.header +:+ txt]> (Main.files sv)
  | Raised e =>
      ((perform_deep_research w (Main.query req) (Main.depth req) (Main.breadth req)
          (Main.existing_learnings req) (Main.research sv)).1 = Raised e ∧
       Main.files sv' = Main.files sv) ∨
      (is_ok (perform_deep_research w (Main.query req) (Main.depth req) (Main.breadth req)
                (Main.existing_learnings req) (Main.research sv)).1 = true ∧
       ((Main.open_write h (Main.clock sv') rf = Raised e ∧
         Main.files sv' = Main.files sv) ∨
        ∃ content,
          Main.write_text h (Main.clock sv') rf content = Raised e ∧
          Main.files sv'
          = <[rf := Main.kept_text h (Main.clock sv') rf content]> (Main.files sv)))
  end.
Proof.
  unfold Main.run_research_try. rewrite S_bind_run. unfold Main.lift at 1.
  destruct (perform_deep_research w _ _ _ _ (Main.research sv)) as [[o|e] st] eqn:Hrun;
    simpl; [|intros [= <- <-]; simpl; do 2 (split; [done|]); by left].
  rewrite S_bind_run. unfold Main.lift at 1, read_list. simpl. rewrite S_bind_run.
  match goal with |- context [Main.generate_final_report h ?t ?q ?s ?c ?d] =>
    destruct (final_report_text h t q s c d) as (txt & -> & Hne) end.
  rewrite S_bind_run, Hne. simpl. rewrite S_bind_run. unfold Main.save_research_result.
  simpl.
  match goal with |- context [Main.open_write h ?t ?f] =>
    destruct (Main.open_write h t f) as [[]|e] eqn:Hopen end.
  2:{ intros [= <- <-]. simpl. do 2 (split; [done|]). right. split; [done|]. by left. }
  match goal with |- context [Main.write_text h ?t ?f ?c] =>
    destruct (Main.write_text h t f c) as [[]|e] eqn:Hwrite end.
  - intros [= <- <-]. simpl. do 4 (split; [done|]). exists txt. by destruct txt.
  - intros [= <- <-]. simpl. do 2 (split; [done|]). right. split; [done|]. right.
    eexists. split; [exact Hwrite|done].
Qed.


(** A write that raises after the file was opened: the request is answered
    with an error, and the result file is left behind, here empty. *)
Example failed_write_leaves_file :
  let host := working_host (text_response "final text") (Raised transport_error) in
  (Main.run_research scenario_world host sample_request fresh_server).1
  = Ok {| Main.result_file := "";
          Main.error := Some (Main.error_message host "quantum error correction"
                                transport_error) |} ∧
  Main.files (Main.run_research scenario_world host sample_request fresh_server).2
    !! "results/result-20250101-120000-01234567.md" = Some "".
Proof. by vm_compute. Qed.

(** X18. The root logger: handling a request never removes a log file handler,
    and every request whose files were set up adds one. *)
Theorem log_handlers_accumulate w h req sv :
  Main.log_handlers sv `prefix_of` Main.log_handlers (Main.run_research w h req sv).2 ∧
  (is_ok (Main.run_research w h req sv).1 = true →
   length (Main.log_handlers (Main.run_research w h req sv).2)
   = S (length (Main.log_handlers sv))).
Proof.
  unfold Main.run_research. rewrite S_bind_run.
  destruct (Main.generate_result_files h sv) as [[names|e] sv1] eqn:Hgen;
    apply generate_result_files_spec in Hgen as (_ & _ & Hl1 & _);
    [|simpl; by rewrite Hl1].
  rewrite S_bind_run.
  destruct (Main.setup_file_logging h _ sv1) as [[[]|e] sv2] eqn:Hset;
    apply setup_file_logging_spec in Hset as (_ & _ & Hl2);
    [|simpl; by rewrite Hl2, Hl1].
  unfold Main.try_except.
  destruct (Main.run_research_try w h req _ sv2) as [[resp|e] sv3] eqn:Htry;
    apply run_research_try_spec in Htry as (_ & Hl3 & _); simpl;
    rewrite Hl3, Hl2, Hl1, length_app; (split; [by apply prefix_app_r|simpl; lia]).
Qed.

Lemma run_expander_calls_le w q d b existing st :
  (expander_calls (events_of (perform_deep_research w q d b existing) st) ≤ range_len d)%nat.
Proof.
  destruct (perform_deep_research w q d b existing st) as [r st'] eqn:Hrun.
  pose proof Hrun as Hrun'.
  apply perform_deep_research_sound in Hrun'
    as (l & h0 & rs & evs & _ & _ & _ & _ & Hloop & Hend).
  apply loop_expander_calls in Hloop as [Hle _].
  destruct rs as [s|e].
  - destruct Hend as (rr & _ & Htr & _). erewrite events_of_app; [|by rewrite Hrun].
    rewrite expander_calls_app.
    change (expander_calls [GenerateFinalReport _ _ _]) with 0%nat. lia.
  - destruct Hend as [_ Htr]. by erewrite events_of_app; [|by rewrite Hrun].
Qed.

Lemma run_research_state w h req sv :
  Main.research (Main.run_research w h req sv).2 = Main.research sv ∨
  Main.research (Main.run_research w h req sv).2
  = (perform_deep_research w (Main.query req) (Main.depth req) (Main.breadth req)
       (Main.existing_learnings req) (Main.research sv)).2.
Proof.
  unfold Main.run_research. rewrite S_bind_run.
  destruct (Main.generate_result_files h sv) as [[names|e] sv1] eqn:Hgen;
    apply generate_result_files_spec in Hgen as (Hr1 & _); [|by left].
  rewrite S_bind_run.
  destruct (Main.setup_file_logging h _ sv1) as [[[]|e] sv2] eqn:Hset;
    apply setup_file_logging_spec in Hset as (Hr2 & _);
    [|left; simpl; by rewrite Hr2].
  unfold Main.try_except.
  destruct (Main.run_research_try w h req _ sv2) as [[resp|e] sv3] eqn:Htry;
    apply run_research_try_spec in Htry as (Hr3 & _); right; simpl;
    by rewrite Hr3, Hr2, Hr1.
Qed.

(** X19. The work one request can cause: with [depth] and [breadth] within the
    bounds of the request model, handling a request makes at most 5 Query
    Expander calls, 25 searches and 50 extractions. *)
Theorem request_work_bound w h req sv :
  Main.valid_request req →
  (expander_calls (request_events w h req sv) ≤ 5)%nat ∧
  (search_calls (request_events w h req sv) ≤ 25)%nat ∧
  (length (extracted_urls (request_events w h req sv)) ≤ 50)%nat.
Proof.
  intros [Hd Hb]. unfold request_events, Main.clock.
  destruct (run_research_state w h req sv) as [-> | ->].
  { rewrite drop_all. unfold expander_calls, search_calls. simpl. lia. }
  fold (events_of (perform_deep_research w (Main.query req) (Main.depth req)
                     (Main.breadth req) (Main.existing_learnings req))
          (Main.research sv)).
  pose proof (run_expander_calls_le w (Main.query req) (Main.depth req) (Main.breadth req)
                (Main.existing_learnings req) (Main.research sv)) as Hexp.
  destruct (run_loop_detail w (Main.query req) (Main.depth req) (Main.breadth req)
              (Main.existing_learnings req) (Main.research sv))
    as (evs & tail & rs & Hevs & Ht1 & Ht2 & _ & _ & Hfan & _).
  destruct Hfan as [Hf1 Hf2]; [lia|]. rewrite Hevs in *. unfold range_len in *.
  rewrite search_calls_app, extracted_urls_app, Ht1, Ht2, app_nil_r.
  split; [lia|]. split; nia.
Qed.

Lemma request_work_bound_witness :
  (expander_calls (request_events scenario_world
                     (working_host (text_response "final text") (Ok tt))
                     sample_request fresh_server) ≤ 5)%nat ∧
  (search_calls (request_events scenario_world
                   (working_host (text_response "final text") (Ok tt))
                   sample_request fresh_server) ≤ 25)%nat ∧
  (length (extracted_urls (request_events scenario_world
                             (working_host (text_response "final text") (Ok tt))
                             sample_request fresh_server)) ≤ 50)%nat.
Proof.
  apply (request_work_bound scenario_world
           (working_host (text_response "final text") (Ok tt)) sample_request fresh_server).
  unfold Main.valid_request. simpl. lia.
Defined.

(** X20. A failure of the final model does not fail the request: when the
    research returns and the files can be set up, opened and written, but
    the call to the final model raises [e], the response still names the
    result file and carries no error, and the file holds the header followed
    by the message for [e]. *)
Theorem final_model_failure_is_saved w h req sv e :
  (∀ t d, Main.makedirs h t d = Ok tt) →
  (∀ t f, Main.open_log h t f = Ok tt) →
  (∀ t f, Main.open_write h t f = Ok tt) →
  (∀ t f c, Main.write_text h t f c = Ok tt) →
  (∀ t p, Main.pro_generate_content_async h t p = Raised e) →
  is_ok (perform_deep_research w (Main.query req) (Main.depth req) (Main.breadth req)
           (Main.existing_learnings req) (Main.research sv)).1 = true →
  ∃ name,
    (Main.run_research w h req sv).1
    = Ok {| Main.result_file := name; Main.error := None |} ∧
    Main.files (Main.run_research w h req sv).2 !! name
    = Some (Main.header +:+ "Произошла ошибка при генерации отчета: "
            +:+ Main.exn_str h e).
Proof.
  intros Hmk Hlog Hopen Hwrite Hfinal Hok.
  cut (∃ name sv',
         Main.run_research w h req sv
         = (Ok {| Main.result_file := name; Main.error := None |}, sv') ∧
         Main.files sv' !! name
         = Some (Main.header +:+ "Произошла ошибка при генерации отчета: "
                 +:+ Main.exn_str h e)).
  { intros (name & sv' & -> & Hfile). by exists name. }
  unfold Main.run_research. rewrite S_bind_run.
  destruct (Main.generate_result_files h sv) as [[names|e'] sv1] eqn:Hgen.
  2:{ exfalso. revert Hgen. unfold Main.generate_result_files.
      destruct (Main.path_exists h _ _); [discriminate|]. by rewrite Hmk. }
  apply generate_result_files_spec in Hgen as (Hr1 & _).
  rewrite S_bind_run. unfold Main.setup_file_logging. rewrite Hlog.
  unfold Main.try_except, Main.run_research_try.
  rewrite S_bind_run. unfold Main.lift at 1. simpl Main.research. rewrite Hr1.
  destruct (perform_deep_research w _ _ _ _ (Main.research sv)) as [[o|e'] st];
    [|discriminate].
  rewrite S_bind_run. unfold Main.lift, read_list. simpl. rewrite S_bind_run.
  unfold Main.generate_final_report, Main.generate_final_report_try.
  rewrite Hfinal. simpl. rewrite S_bind_run. simpl. rewrite S_bind_run.
  unfold Main.save_research_result. rewrite Hopen, Hwrite. simpl.
  eexists _, _. split; [reflexivity|]. simpl. by rewrite lookup_insert_eq.
Qed.

Lemma final_model_failure_is_saved_witness :
  ∃ name,
    (Main.run_research scenario_world (working_host (Raised transport_error) (Ok tt))
       sample_request fresh_server).1
    = Ok {| Main.result_file := name; Main.error := None |} ∧
    Main.files (Main.run_research scenario_world
                  (working_host (Raised transport_error) (Ok tt))
                  sample_request fresh_server).2 !! name
    = Some (Main.header +:+ "Произошла ошибка при генерации отчета: " +:+ "transport").
Proof.
  apply (final_model_failure_is_saved scenario_world
           (working_host (Raised transport_error) (Ok tt)) sample_request fresh_server
           transport_error); try done.
Defined.
